(** * Operator console (src/App.jsx): orchestration core

    A shallow embedding of the asynchronous functions of [App] (the transport
    client [api], the refreshers, the four mutating actions and the auto-run
    effect) and the properties of the console that follow from them.

    Asynchronous functions are embedded as terms of a small free monad
    [Prog]: a term either returns, throws, writes one piece of React state,
    or issues [fetch] requests and waits for their outcomes.  A term is run
    either on its own against a backend ([run]), or interleaved with other
    in-flight terms by the event loop of the page ([step]). *)

From Stdlib Require Import ZArith String List Bool DecimalString Lia.
Import ListNotations.

Set Warnings "-register-all".

Local Open Scope string_scope.
Local Open Scope Z_scope.

(** ** JavaScript values *)

Module JS.

(** The values that [JSON.parse] produces, and [undefined], which a property
    read adds.  Numbers are the integers: every number the console reads or
    prints (HTTP status, step bound, processed count) is one.  [JNum z]
    stands for the JavaScript number [z] when [z] is a safe integer
    ([safe_integer] below); fractions and integers beyond that range, which
    JavaScript rounds and prints in another form, are outside the model. *)
Inductive JSVal : Type :=
| JUndefined
| JNull
| JBool (b : bool)
| JNum (z : Z)
| JStr (s : string)
| JArr (items : list JSVal)
| JObj (fields : list (string * JSVal)).

(** What [new Error(msg)] and the built-in errors carry. *)
Record Error : Type := mkError { name : string; message : string }.

Definition new_Error (msg : string) : Error := mkError "Error" msg.

(** ToBoolean, as applied by [if (v)] and [v || w]. *)
Definition truthy (v : JSVal) : bool :=
  match v with
  | JUndefined | JNull => false
  | JBool b => b
  | JNum z => negb (z =? 0)
  | JStr s => negb (String.eqb s "")
  | JArr _ | JObj _ => true
  end.

(** [a || b] *)
Definition or_else (a b : JSVal) : JSVal := if truthy a then a else b.

(** The integers a JavaScript number holds exactly:
    [Number.isSafeInteger]. *)
Definition safe_integer (z : Z) : Prop := - 2 ^ 53 < z < 2 ^ 53.

(** The decimal digits of an integer, with a minus sign when negative: what
    JavaScript prints for a safe integer. *)
Definition decimal (z : Z) : string := NilZero.string_of_int (Z.to_int z).

(** ToString, as applied to the holes of a template literal (on numbers:
    for safe integers). *)
Fixpoint ToString (v : JSVal) : string :=
  match v with
  | JUndefined => "undefined"
  | JNull => "null"
  | JBool true => "true"
  | JBool false => "false"
  | JNum z => decimal z
  | JStr s => s
  | JArr items =>
      String.concat ","
        (map (fun x => match x with
                       | JUndefined | JNull => ""
                       | _ => ToString x
                       end) items)
  | JObj _ => "[object Object]"
  end.

(** The binding [JSON.parse] keeps for a key: the last one. *)
Fixpoint lookup_field (key : string) (fields : list (string * JSVal))
  : option JSVal :=
  match fields with
  | [] => None
  | (k, v) :: rest =>
      match lookup_field key rest with
      | Some w => Some w
      | None => if String.eqb k key then Some v else None
      end
  end.

(** The message of the TypeError of a property read on [null] or [undefined]
    (wording of V8). *)
Definition TypeError_read (v : JSVal) (prop : string) : Error :=
  mkError "TypeError"
    ("Cannot read properties of " ++ ToString v
       ++ " (reading '" ++ prop ++ "')").

(** [v.prop], for a property name that no built-in prototype defines (the
    console reads [items] and [processed]): own data properties of objects,
    [undefined] on every other value, a TypeError on [null] and
    [undefined]. *)
Definition get_prop (v : JSVal) (prop : string) : Error + JSVal :=
  match v with
  | JUndefined | JNull => inl (TypeError_read v prop)
  | JObj fields =>
      match lookup_field prop fields with
      | Some w => inr w
      | None => inr JUndefined
      end
  | _ => inr JUndefined
  end.

End JS.
Import JS.

(** ** The fetch interface *)

(** The text [JSON.stringify v], kept as the value it encodes. *)
Inductive BodyText : Type := JSON_stringify (v : JSVal).

(** The option bag handed to [api] and spread into the one handed to
    [fetch]. *)
Record Opts : Type := mkOpts {
  method : option string;
  body : option BodyText;
  headers : option (list (string * string))
}.

Definition no_opts : Opts := mkOpts None None None.

Record Request : Type := mkRequest {
  url : string;
  init : Opts
}.

(** The method [fetch] uses: GET unless the option bag names one. *)
Definition request_method (r : Request) : string :=
  match method (init r) with
  | Some m => m
  | None => "GET"
  end.

(** A response as [api] reads it: [status], [statusText] and the outcome of
    [res.json()], which rejects when the body is not JSON. *)
Record Response : Type := mkResponse {
  status : Z;
  statusText : string;
  json : Error + JSVal
}.

(** [res.ok]: the status is in the range 200-299 (Fetch standard). *)
Definition ok (res : Response) : bool :=
  (200 <=? status res) && (status res <=? 299).

(** [fetch] either rejects (network failure) or resolves to a response. *)
Inductive FetchOutcome : Type :=
| Rejected (e : Error)
| Resolved (res : Response).

(** ** React state of [App] *)

Record IngestDraft : Type := mkDraft {
  from_email : string;
  subject : string;
  draft_body : string
}.

Definition draft_value (d : IngestDraft) : JSVal :=
  JObj [("from_email", JStr (from_email d));
        ("subject", JStr (subject d));
        ("body", JStr (draft_body d))].

Record Store : Type := mkStore {
  loading : bool;
  seeded : bool;
  logs : JSVal;
  analytics : JSVal;
  statusMsg : string;
  agentConfig : JSVal;
  agentStatus : JSVal;
  gmailQueue : JSVal
}.

(** The state of the first render. *)
Definition initial_store : Store :=
  mkStore false false (JArr []) JNull "" JNull JNull (JArr []).

(** One call of a state setter. *)
Inductive Write : Type :=
| setLoading (b : bool)
| setSeeded (b : bool)
| setLogs (v : JSVal)
| setAnalytics (v : JSVal)
| setStatusMsg (s : string)
| setAgentConfig (v : JSVal)
| setAgentStatus (v : JSVal)
| setGmailQueue (v : JSVal).

Definition apply_write (w : Write) (s : Store) : Store :=
  match w with
  | setLoading b =>
      mkStore b (seeded s) (logs s) (analytics s) (statusMsg s)
        (agentConfig s) (agentStatus s) (gmailQueue s)
  | setSeeded b =>
      mkStore (loading s) b (logs s) (analytics s) (statusMsg s)
        (agentConfig s) (agentStatus s) (gmailQueue s)
  | setLogs v =>
      mkStore (loading s) (seeded s) v (analytics s) (statusMsg s)
        (agentConfig s) (agentStatus s) (gmailQueue s)
  | setAnalytics v =>
      mkStore (loading s) (seeded s) (logs s) v (statusMsg s)
        (agentConfig s) (agentStatus s) (gmailQueue s)
  | setStatusMsg m =>
      mkStore (loading s) (seeded s) (logs s) (analytics s) m
        (agentConfig s) (agentStatus s) (gmailQueue s)
  | setAgentConfig v =>
      mkStore (loading s) (seeded s) (logs s) (analytics s) (statusMsg s)
        v (agentStatus s) (gmailQueue s)
  | setAgentStatus v =>
      mkStore (loading s) (seeded s) (logs s) (analytics s) (statusMsg s)
        (agentConfig s) v (gmailQueue s)
  | setGmailQueue v =>
      mkStore (loading s) (seeded s) (logs s) (analytics s) (statusMsg s)
        (agentConfig s) (agentStatus s) v
  end.

(** ** Asynchronous code *)

(** An asynchronous computation with result [A].  [Fetch r k] issues [r] and
    resumes with [k] when the request settles; [Fetch2] issues two requests
    at once and resumes when both have settled. *)
Inductive Prog (A : Type) : Type :=
| Ret (a : A)
| Throw (e : Error)
| Fetch (r : Request) (k : FetchOutcome -> Prog A)
| Fetch2 (r1 r2 : Request) (k : FetchOutcome -> FetchOutcome -> Prog A)
| Do (w : Write) (k : Prog A).

Arguments Ret {A} a.
Arguments Throw {A} e.
Arguments Fetch {A} r k.
Arguments Fetch2 {A} r1 r2 k.
Arguments Do {A} w k.

Fixpoint bind {A B : Type} (p : Prog A) (f : A -> Prog B) : Prog B :=
  match p with
  | Ret a => f a
  | Throw e => Throw e
  | Fetch r k => Fetch r (fun o => bind (k o) f)
  | Fetch2 r1 r2 k => Fetch2 r1 r2 (fun o1 o2 => bind (k o1 o2) f)
  | Do w k => Do w (bind k f)
  end.

Notation "x <- p ;; q" := (bind p (fun x => q))
  (at level 61, p at next level, right associativity).
Notation "p ;; q" := (bind p (fun _ => q))
  (at level 61, right associativity).

(** [try { p } catch (e) { h e }], and a promise's [.catch(h)]. *)
Fixpoint try_catch {A : Type} (p : Prog A) (h : Error -> Prog A) : Prog A :=
  match p with
  | Ret a => Ret a
  | Throw e => h e
  | Fetch r k => Fetch r (fun o => try_catch (k o) h)
  | Fetch2 r1 r2 k => Fetch2 r1 r2 (fun o1 o2 => try_catch (k o1 o2) h)
  | Do w k => Do w (try_catch k h)
  end.

(** [try { p } finally { f }] *)
Fixpoint try_finally {A : Type} (p : Prog A) (f : Prog unit) : Prog A :=
  match p with
  | Ret a => f ;; Ret a
  | Throw e => f ;; Throw e
  | Fetch r k => Fetch r (fun o => try_finally (k o) f)
  | Fetch2 r1 r2 k => Fetch2 r1 r2 (fun o1 o2 => try_finally (k o1 o2) f)
  | Do w k => Do w (try_finally k f)
  end.

(** A call of a state setter as a statement. *)
Definition call (w : Write) : Prog unit := Do w (Ret tt).

(** [if (c) p] *)
Definition when (c : bool) (p : Prog unit) : Prog unit :=
  if c then p else Ret tt.

(** The result of an expression that may throw. *)
Definition lift {A : Type} (x : Error + A) : Prog A :=
  match x with
  | inl e => Throw e
  | inr a => Ret a
  end.

(** [await Promise.all([p, q])] for two promises that each start with one
    request: both requests leave before either settles, and the first
    rejection rejects the whole. *)
Definition Promise_all2 {A : Type} (p q : Prog A) : Prog (A * A) :=
  match p, q with
  | Fetch r1 k1, Fetch r2 k2 =>
      Fetch2 r1 r2 (fun o1 o2 => a <- k1 o1 ;; b <- k2 o2 ;; Ret (a, b))
  | _, _ => a <- p ;; b <- q ;; Ret (a, b)
  end.

(** ** Running one function against a backend *)

Record World : Type := mkWorld {
  store : Store;
  trace : list Request
}.

(** A backend answers a request knowing the requests that came before. *)
Definition Backend : Type := list Request -> Request -> FetchOutcome.

Inductive Completion (A : Type) : Type :=
| Normal (a : A)
| Thrown (e : Error).

Arguments Normal {A} a.
Arguments Thrown {A} e.

Fixpoint run {A : Type} (be : Backend) (p : Prog A) (w : World)
  : Completion A * World :=
  match p with
  | Ret a => (Normal a, w)
  | Throw e => (Thrown e, w)
  | Fetch r k =>
      run be (k (be (trace w) r)) (mkWorld (store w) (trace w ++ [r])%list)
  | Fetch2 r1 r2 k =>
      run be (k (be (trace w) r1) (be (trace w ++ [r1])%list r2))
        (mkWorld (store w) (trace w ++ [r1; r2])%list)
  | Do wr k => run be k (mkWorld (apply_write wr (store w)) (trace w))
  end.

(** ** The functions of [App] *)

(** The backend address the console falls back to. *)
Definition localhost : string := "http://localhost:8000".

Section App.

(** [import.meta.env.VITE_BACKEND_URL || 'http://localhost:8000'] *)
Variable BACKEND_URL : string.

(** [{ ...base, ...extra }] on string-valued objects: a key of [extra]
    replaces the value of the same key of [base], a new key is appended. *)
Fixpoint assign_key (k v : string) (base : list (string * string))
  : list (string * string) :=
  match base with
  | [] => [(k, v)]
  | (k', v') :: rest =>
      if String.eqb k' k then (k', v) :: rest
      else (k', v') :: assign_key k v rest
  end.

Definition spread (base extra : list (string * string))
  : list (string * string) :=
  fold_left (fun acc kv => assign_key (fst kv) (snd kv) acc) extra base.

(** The second argument of [fetch] in [api]. *)
Definition fetch_init (opts : Opts) : Opts :=
  mkOpts (method opts) (body opts)
    (Some (spread [("Content-Type", "application/json")]
             (match headers opts with Some h => h | None => [] end))).

Definition request (path : string) (opts : Opts) : Request :=
  mkRequest (BACKEND_URL ++ path) (fetch_init opts).

(** What [api] does with a settled [fetch]. *)
Definition api_settle (o : FetchOutcome) : Prog JSVal :=
  match o with
  | Rejected e => Throw e
  | Resolved res =>
      if negb (ok res)
      then Throw (new_Error
                    (ToString (JNum (status res)) ++ " " ++ statusText res))
      else lift (json res)
  end.

Definition api (path : string) (opts : Opts) : Prog JSVal :=
  Fetch (request path opts) api_settle.

Definition refreshAll : Prog unit :=
  try_finally
    (try_catch
       (call (setLoading true) ;;
        r <- Promise_all2
               (try_catch (api "/analytics/summary" no_opts)
                  (fun _ => Ret JNull))
               (try_catch (api "/logs" no_opts)
                  (fun _ => Ret (JArr []))) ;;
        let an := fst r in
        let ls := snd r in
        when (truthy an) (call (setAnalytics an)) ;;
        when (truthy ls) (call (setLogs ls)))
       (fun _ => Ret tt))
    (call (setLoading false)).

Definition loadAgentMeta : Prog unit :=
  try_catch
    (r <- Promise_all2
            (try_catch (api "/agent/config" no_opts) (fun _ => Ret JNull))
            (try_catch (api "/agent/status" no_opts) (fun _ => Ret JNull)) ;;
     let cfg := fst r in
     let st := snd r in
     when (truthy cfg) (call (setAgentConfig cfg)) ;;
     when (truthy st) (call (setAgentStatus st)))
    (fun _ => Ret tt).

Definition loadAgentStatus : Prog unit :=
  try_catch
    (st <- api "/agent/status" no_opts ;;
     call (setAgentStatus st))
    (fun _ => Ret tt).

Definition pollGmail : Prog unit :=
  try_catch
    (res <- api "/gmail/poll" no_opts ;;
     items <- lift (get_prop res "items") ;;
     call (setGmailQueue (or_else items (JArr []))))
    (fun _ => call (setGmailQueue (JArr []))).

Definition post (b : option BodyText) : Opts := mkOpts (Some "POST") b None.

Definition handleSeed : Prog unit :=
  call (setStatusMsg "Seeding sample vendor requests...") ;;
  try_catch
    (api "/seed/vendors" (post (Some (JSON_stringify (JArr [])))) ;;
     call (setSeeded true) ;;
     call (setStatusMsg "Seeded sample vendor requests.") ;;
     refreshAll ;;
     loadAgentStatus)
    (fun e => call (setStatusMsg ("Failed to seed: " ++ message e))).

Definition handleIngest (form : IngestDraft) : Prog unit :=
  call (setStatusMsg "Ingesting mock email...") ;;
  try_catch
    (api "/ingest/mock-email"
       (post (Some (JSON_stringify (draft_value form)))) ;;
     call (setStatusMsg "Email ingested. You can now Process Next.") ;;
     refreshAll ;;
     pollGmail ;;
     loadAgentStatus)
    (fun e => call (setStatusMsg ("Failed to ingest: " ++ message e))).

Definition runOnce (showMsg : bool) : Prog unit :=
  when showMsg (call (setStatusMsg "Processing next email...")) ;;
  try_catch
    (res <- api "/agent/run-once" (post None) ;;
     processed <- lift (get_prop res "processed") ;;
     (if truthy processed
      then call (setStatusMsg "Processed one email and replied (mock).")
      else call (setStatusMsg "No emails pending.")) ;;
     refreshAll ;;
     pollGmail ;;
     loadAgentStatus)
    (fun e => call (setStatusMsg ("Process failed: " ++ message e))).

Definition handleProcess : Prog unit := runOnce true.

Definition runLoop (steps : Z) : Prog unit :=
  call (setStatusMsg
          ("Running loop for up to " ++ ToString (JNum steps) ++ " steps...")) ;;
  try_catch
    (res <- api "/agent/run-loop"
              (post (Some (JSON_stringify (JObj [("max_steps", JNum steps)])))) ;;
     processed <- lift (get_prop res "processed") ;;
     call (setStatusMsg
             ("Loop done. Processed " ++ ToString processed ++ " messages.")) ;;
     refreshAll ;;
     pollGmail ;;
     loadAgentStatus)
    (fun e => call (setStatusMsg ("Run-loop failed: " ++ message e))).

(** The callback of [setInterval] in the auto-run effect. *)
Definition tick : Prog unit :=
  runOnce false ;;
  pollGmail ;;
  refreshAll ;;
  loadAgentStatus.

(** ** The page: effects, timers and functions in flight *)

(** The handle [setInterval] returns: an integer greater than zero. *)
Definition TimerId : Type := positive.

Inductive Origin : Type := FromMount | FromUser | FromTick.

(** A function call suspended at an [await]: [code] starts with the requests
    it waits for, [issued] are its requests that have settled. *)
Record Task : Type := mkTask {
  origin : Origin;
  issued : list Request;
  code : Prog unit
}.

Record Page : Type := mkPage {
  view : Store;
  autoRun : bool;
  intervalRef : option TimerId;
  timers : list TimerId;
  next_timer : TimerId;
  mounted : bool;
  inflight : list Task;
  sent : list Request
}.

(** Runs a function until it suspends or finishes; a function that finishes
    by throwing leaves a rejected promise that nobody reads. *)
Fixpoint advance (p : Prog unit) (s : Store) : Store * option (Prog unit) :=
  match p with
  | Ret _ => (s, None)
  | Throw _ => (s, None)
  | Do w k => advance k (apply_write w s)
  | Fetch _ _ => (s, Some p)
  | Fetch2 _ _ _ => (s, Some p)
  end.

Definition pending (p : Prog unit) : list Request :=
  match p with
  | Fetch r _ => [r]
  | Fetch2 r1 r2 _ => [r1; r2]
  | _ => []
  end.

(** Continues [p], the code of a function of origin [o] that has settled
    the requests [done], inside the page [pg] with the tasks [others] in
    flight.  State setters of an unmounted component do nothing. *)
Definition continue (o : Origin) (done : list Request) (p : Prog unit)
    (others : list Task) (pg : Page) : Page :=
  let r := advance p (view pg) in
  mkPage (if mounted pg then fst r else view pg)
    (autoRun pg) (intervalRef pg) (timers pg) (next_timer pg) (mounted pg)
    (match snd r with
     | Some q => others ++ [mkTask o done q]
     | None => others
     end)%list
    (match snd r with
     | Some q => sent pg ++ pending q
     | None => sent pg
     end)%list.

(** Calls a function without awaiting it. *)
Definition launch (o : Origin) (p : Prog unit) (pg : Page) : Page :=
  continue o [] p (inflight pg) pg.

Definition clearInterval (id : TimerId) (pg : Page) : Page :=
  mkPage (view pg) (autoRun pg) (intervalRef pg)
    (filter (fun t => negb (Pos.eqb t id)) (timers pg))
    (next_timer pg) (mounted pg) (inflight pg) (sent pg).

(** [if (intervalRef.current) clearInterval(intervalRef.current)] *)
Definition clear_current (pg : Page) : Page :=
  match intervalRef pg with
  | Some id => clearInterval id pg
  | None => pg
  end.

(** [intervalRef.current = v] *)
Definition set_current (v : option TimerId) (pg : Page) : Page :=
  mkPage (view pg) (autoRun pg) v (timers pg) (next_timer pg) (mounted pg)
    (inflight pg) (sent pg).

(** [setInterval(tick, 3000)]: a fresh handle, now active. *)
Definition setInterval (pg : Page) : TimerId * Page :=
  (next_timer pg,
   mkPage (view pg) (autoRun pg) (intervalRef pg)
     (next_timer pg :: timers pg) (Pos.succ (next_timer pg)) (mounted pg)
     (inflight pg) (sent pg)).

(** The body of the effect that depends on [autoRun]. *)
Definition autoRun_effect (pg : Page) : Page :=
  if autoRun pg then
    let r := setInterval (clear_current pg) in
    set_current (Some (fst r)) (snd r)
  else
    set_current None (clear_current pg).

(** The function the effect returns. *)
Definition autoRun_cleanup (pg : Page) : Page := clear_current pg.

(** [setAutoRun(b)]: React re-renders only when the state changes, and then
    runs the cleanup of the last effect and the effect again. *)
Definition setAutoRun (b : bool) (pg : Page) : Page :=
  if Bool.eqb b (autoRun pg) then pg
  else
    autoRun_effect
      (autoRun_cleanup
         (mkPage (view pg) b (intervalRef pg) (timers pg) (next_timer pg)
            (mounted pg) (inflight pg) (sent pg))).

(** The page after the first render and its two effects. *)
Definition mount : Page :=
  autoRun_effect
    (launch FromMount pollGmail
       (launch FromMount loadAgentMeta
          (launch FromMount refreshAll
             (mkPage initial_store false None [] 1%positive true [] [])))).

(** The buttons of the console. *)
Inductive Action : Type :=
| RunOnceButton
| RunTenSteps
| RefreshQueue
| Seed
| Ingest (form : IngestDraft)
| ProcessNext
| RefreshLogs.

Definition handler (a : Action) : Prog unit :=
  match a with
  | RunOnceButton => runOnce true
  | RunTenSteps => runLoop 10
  | RefreshQueue => pollGmail
  | Seed => handleSeed
  | Ingest form => handleIngest form
  | ProcessNext => handleProcess
  | RefreshLogs => refreshAll
  end.

Inductive Event : Type :=
| StartAuto
| StopAuto
| Click (a : Action)
| Fire (id : TimerId)
| Settle (i : nat) (os : list FetchOutcome)
| Unmount.

(** The code of a task once the requests it waits for have settled. *)
Definition resume (t : Task) (os : list FetchOutcome)
  : option (list Request * Prog unit) :=
  match code t, os with
  | Fetch r k, [o] => Some ([r], k o)
  | Fetch2 r1 r2 k, [o1; o2] => Some ([r1; r2], k o1 o2)
  | _, _ => None
  end.

Fixpoint remove_nth {A : Type} (i : nat) (l : list A) : list A :=
  match l, i with
  | [], _ => []
  | _ :: rest, O => rest
  | x :: rest, S j => x :: remove_nth j rest
  end.

(** One turn of the event loop; [None] when the event cannot happen: a
    timer fires only while it is active, a button needs the mounted
    console, a task resumes on the outcomes of the requests it awaits. *)
Definition step (pg : Page) (ev : Event) : option Page :=
  match ev with
  | StartAuto => if mounted pg then Some (setAutoRun true pg) else None
  | StopAuto => if mounted pg then Some (setAutoRun false pg) else None
  | Click a =>
      if mounted pg then Some (launch FromUser (handler a) pg) else None
  | Fire id =>
      if existsb (Pos.eqb id) (timers pg)
      then Some (launch FromTick tick pg)
      else None
  | Settle i os =>
      match nth_error (inflight pg) i with
      | Some t =>
          match resume t os with
          | Some (rs, p) =>
              Some (continue (origin t) (issued t ++ rs)%list p
                      (remove_nth i (inflight pg)) pg)
          | None => None
          end
      | None => None
      end
  | Unmount =>
      if mounted pg then
        let q := autoRun_cleanup pg in
        Some (mkPage (view q) (autoRun q) (intervalRef q) (timers q)
                (next_timer q) false (inflight q) (sent q))
      else None
  end.

Fixpoint exec (pg : Page) (evs : list Event) : option Page :=
  match evs with
  | [] => Some pg
  | ev :: rest =>
      match step pg ev with
      | Some q => exec q rest
      | None => None
      end
  end.

(** ** Vocabulary of the properties *)

(** The requests of the refreshers. *)
Definition get (path : string) : Request := request path no_opts.

(** The primary requests of the four mutating actions. *)
Definition seed_opts : Opts := post (Some (JSON_stringify (JArr []))).

Definition ingest_opts (form : IngestDraft) : Opts :=
  post (Some (JSON_stringify (draft_value form))).

Definition run_loop_opts (steps : Z) : Opts :=
  post (Some (JSON_stringify (JObj [("max_steps", JNum steps)]))).







(** The timer discipline of the page. *)
Definition timer_inv (pg : Page) : Prop :=
  match intervalRef pg with
  | Some id =>
      autoRun pg = true /\
      timers pg = (if mounted pg then [id] else []) /\
      Pos.lt id (next_timer pg)
  | None => autoRun pg = false /\ timers pg = []
  end.


(** ** Sample backends and states *)

Definition respond (code : Z) (text : string) (b : Error + JSVal)
  : FetchOutcome :=
  Resolved (mkResponse code text b).

Definition not_json : Error + JSVal :=
  inl (mkError "SyntaxError" "Unexpected token < in JSON at position 0").

(** A backend that is down: every request gets a 503. *)
Definition be_down : Backend :=
  fun _ _ => respond 503 "Service Unavailable" not_json.

Definition at_path (r : Request) (path : string) : bool :=
  String.eqb (url r) (BACKEND_URL ++ path).

Definition sample_log : JSVal :=
  JObj [("_id", JStr "log-1"); ("subject", JStr "Status of VR-2025-0012");
        ("labels", JArr [JStr "auto_resolved"])].

(** A healthy backend with nothing pending. *)
Definition be_idle : Backend :=
  fun _ r =>
    if at_path r "/agent/run-once"
    then respond 200 "OK" (inr (JObj [("processed", JBool false)]))
    else if at_path r "/agent/run-loop"
    then respond 200 "OK" (inr (JObj [("processed", JNum 0)]))
    else if at_path r "/gmail/poll"
    then respond 200 "OK" (inr (JObj [("items", JArr [])]))
    else if at_path r "/logs"
    then respond 200 "OK" (inr (JArr [sample_log]))
    else respond 200 "OK" (inr (JObj [("total", JNum 1)])).

(** The same backend with a failing [/logs] endpoint. *)
Definition be_logs_down : Backend :=
  fun h r =>
    if at_path r "/logs"
    then respond 500 "Internal Server Error" not_json
    else be_idle h r.

(** A backend with one message in the mailbox and one to process. *)
Definition be_busy : Backend :=
  fun h r =>
    if at_path r "/agent/run-once"
    then respond 200 "OK" (inr (JObj [("processed", JBool true)]))
    else if at_path r "/agent/run-loop"
    then respond 200 "OK" (inr (JObj [("processed", JNum 3)]))
    else if at_path r "/gmail/poll"
    then respond 200 "OK"
           (inr (JObj [("items", JArr [JObj [("messageId", JStr "m-1")]])]))
    else be_idle h r.

(** The console right after its first render, and one that already shows a
    log entry. *)
Definition fresh_world : World := mkWorld initial_store [].

Definition world_with_log : World :=
  mkWorld (apply_write (setLogs (JArr [sample_log])) initial_store) [].

Definition world_with_queue : World :=
  mkWorld
    (apply_write (setGmailQueue (JArr [JObj [("messageId", JStr "m-0")]]))
       initial_store) [].

(** The page a sequence of events leads to. *)
Definition page_after (evs : list Event) : Page :=
  match exec mount evs with
  | Some pg => pg
  | None => mount
  end.

(** ** Vocabulary of the properties of the whole console *)

(** A backend whose answers do not depend on the requests it has seen. *)
Definition stateless (be : Backend) : Prop :=
  forall h h' r, be h r = be h' r.

(** The refresh sequence of ingest, process-next and run-loop, and the one
    of a timer tick. *)
Definition action_refresh : Prog unit :=
  refreshAll ;; pollGmail ;; loadAgentStatus.

Definition tick_refresh_steps : Prog unit :=
  pollGmail ;; refreshAll ;; loadAgentStatus.

(** The value of a header in an object of headers. *)
Fixpoint header (k : string) (hs : list (string * string)) : option string :=
  match hs with
  | [] => None
  | (k', v) :: rest => if String.eqb k' k then Some v else header k rest
  end.

(** [obeys Pw Pr p]: on every path of [p], every state setter call
    satisfies [Pw] and every request sent satisfies [Pr]. *)
Fixpoint obeys {A : Type} (Pw : Write -> Prop) (Pr : Request -> Prop)
    (p : Prog A) : Prop :=
  match p with
  | Ret _ => True
  | Throw _ => True
  | Fetch r k => Pr r /\ forall o, obeys Pw Pr (k o)
  | Fetch2 r1 r2 k => Pr r1 /\ Pr r2 /\ forall o1 o2, obeys Pw Pr (k o1 o2)
  | Do w k => Pw w /\ obeys Pw Pr k
  end.

(** The endpoints the console reads and the ones it posts to. *)
Definition read_paths : list string :=
  ["/analytics/summary"; "/logs"; "/agent/config"; "/agent/status";
   "/gmail/poll"].

Definition action_paths : list string :=
  ["/seed/vendors"; "/ingest/mock-email"; "/agent/run-once";
   "/agent/run-loop"].

Definition known_request (r : Request) : Prop :=
  (exists path, In path read_paths /\ r = get path) \/
  (exists path b, In path action_paths /\ r = request path (post b)).

(** State setter calls that never put a falsy value where the console
    shows a list or a summary, and never take the seeded mark back. *)
Definition keeps_shape (w : Write) : Prop :=
  match w with
  | setSeeded b => b = true
  | setLogs v => truthy v = true
  | setGmailQueue v => truthy v = true
  | setAnalytics v => truthy v = true
  | setAgentConfig v => truthy v = true
  | _ => True
  end.

Definition tame {A : Type} (p : Prog A) : Prop :=
  obeys keeps_shape known_request p.

Definition page_tame (pg : Page) : Prop :=
  Forall (fun t => tame (code t)) (inflight pg).

(** [loading_post owed p Q]: on every path of [p], entered when the last
    value [p]'s caller gave the loading flag is [owed], the completion of
    [p] and the last value given to the flag by then satisfy [Q]. *)
Fixpoint loading_post {A : Type} (owed : bool) (p : Prog A)
    (Q : Completion A -> bool -> Prop) : Prop :=
  match p with
  | Ret a => Q (Normal a) owed
  | Throw e => Q (Thrown e) owed
  | Fetch _ k => forall o, loading_post owed (k o) Q
  | Fetch2 _ _ k => forall o1 o2, loading_post owed (k o1 o2) Q
  | Do (setLoading b) k => loading_post b k Q
  | Do _ k => loading_post owed k Q
  end.

(** A function that, having last set the loading flag to [owed], ends on
    every path with the flag last set to [false] (or never set, when [owed]
    is [false]). *)
Definition settles_loading {A : Type} (owed : bool) (p : Prog A) : Prop :=
  loading_post owed p (fun _ b => b = false).

(** Every function in flight will clear the loading flag it raised, and a
    raised flag on the mounted console is owed by one of them. *)
Definition loading_inv (pg : Page) : Prop :=
  exists owes : list bool,
    Forall2 (fun t b => settles_loading b (code t)) (inflight pg) owes /\
    (mounted pg = true -> loading (view pg) = true -> In true owes).

(** The button the console shows for the automatic cycle:
    [!autoRun ? Start Auto : Stop Auto]. *)
Definition auto_button (pg : Page) : Event :=
  if negb (autoRun pg) then StartAuto else StopAuto.

(** The state a function leaves when run from the state [s]. *)
Definition effect {A : Type} (be : Backend) (p : Prog A) (s : Store) : Store :=
  store (snd (run be p (mkWorld s []))).

(** A backend that answers every request with a [null] body. *)
Definition be_null : Backend := fun _ _ => respond 200 "OK" (inr JNull).


(** A property of the state that every shape-keeping setter call keeps. *)
Definition shape_invariant (Inv : Store -> Prop) : Prop :=
  forall w s, keeps_shape w -> Inv s -> Inv (apply_write w s).

(** A page whose functions in flight are tame, that has sent known requests
    only, and whose state satisfies [Inv]. *)
Definition page_inv (Inv : Store -> Prop) (pg : Page) : Prop :=
  page_tame pg /\ Forall known_request (sent pg) /\ Inv (view pg).


Definition is_post (r : Request) : bool :=
  String.eqb (request_method r) "POST".

(** The buttons that change the backend. *)
Definition posts (a : Action) : bool :=
  match a with
  | RefreshQueue | RefreshLogs => false
  | _ => true
  end.


(** Outcomes of single requests. *)
Definition net_down : FetchOutcome :=
  Rejected (mkError "TypeError" "Failed to fetch").

Definition ok_empty : FetchOutcome := respond 200 "OK" (inr (JObj [])).


(** ** Running sequences, handlers and the three refreshers *)

Lemma run_bind {A C : Type} (be : Backend) (p : Prog A) (f : A -> Prog C) :
  forall w,
    run be (bind p f) w =
    match run be p w with
    | (Normal a, w') => run be (f a) w'
    | (Thrown e, w') => (Thrown e, w')
    end.
Proof.
  induction p as [a | e | r k IH | r1 r2 k IH | wr k IH]; intros w; simpl;
    auto.
Qed.

Lemma run_try_catch {A : Type} (be : Backend) (p : Prog A)
    (h : Error -> Prog A) :
  forall w,
    run be (try_catch p h) w =
    match run be p w with
    | (Normal a, w') => (Normal a, w')
    | (Thrown e, w') => run be (h e) w'
    end.
Proof.
  induction p as [a | e | r k IH | r1 r2 k IH | wr k IH]; intros w; simpl;
    auto.
Qed.

Lemma run_api (be : Backend) (path : string) (opts : Opts) (w : World) :
  run be (api path opts) w =
  (fst (run be (api path opts) w),
   mkWorld (store w) (trace w ++ [request path opts])).
Proof.
  unfold api; simpl.
  destruct (be (trace w) (request path opts)) as [e | res]; simpl; auto.
  destruct (ok res); simpl; auto.
  destruct (json res); simpl; auto.
Qed.

Ltac settle o :=
  let e := fresh "e" in
  let res := fresh "res" in
  destruct o as [e | res]; simpl;
  [ | destruct (ok res); simpl; [ destruct (json res); simpl | ] ].

Lemma run_refreshAll (be : Backend) (w : World) :
  exists s,
    run be refreshAll w =
    (Normal tt,
     mkWorld s (trace w ++ [get "/analytics/summary"; get "/logs"])) /\
    statusMsg s = statusMsg (store w) /\
    gmailQueue s = gmailQueue (store w) /\
    agentStatus s = agentStatus (store w).
Proof.
  unfold refreshAll, api; simpl.
  fold (get "/analytics/summary"); fold (get "/logs").
  settle (be (trace w) (get "/analytics/summary"));
    settle (be (trace w ++ [get "/analytics/summary"])%list (get "/logs"));
    repeat match goal with
           | |- context [truthy ?v] => destruct (truthy v); simpl
           end;
    eexists; repeat split; reflexivity.
Qed.

Lemma run_loadAgentStatus (be : Backend) (w : World) :
  exists s,
    run be loadAgentStatus w =
    (Normal tt, mkWorld s (trace w ++ [get "/agent/status"])) /\
    statusMsg s = statusMsg (store w) /\
    gmailQueue s = gmailQueue (store w) /\
    logs s = logs (store w) /\
    analytics s = analytics (store w).
Proof.
  unfold loadAgentStatus, api; simpl.
  fold (get "/agent/status").
  settle (be (trace w) (get "/agent/status"));
    eexists; repeat split; reflexivity.
Qed.

Lemma run_pollGmail (be : Backend) (w : World) :
  exists s,
    run be pollGmail w =
    (Normal tt, mkWorld s (trace w ++ [get "/gmail/poll"])) /\
    statusMsg s = statusMsg (store w) /\
    logs s = logs (store w) /\
    analytics s = analytics (store w).
Proof.
  unfold pollGmail, api; simpl.
  fold (get "/gmail/poll").
  settle (be (trace w) (get "/gmail/poll"));
    try (eexists; repeat split; reflexivity).
  match goal with
  | |- context [get_prop ?v _] => destruct (get_prop v "items"); simpl
  end; eexists; repeat split; reflexivity.
Qed.

Lemma run_ret {A : Type} (be : Backend) (a : A) (w : World) :
  run be (Ret a) w = (Normal a, w).
Proof. reflexivity. Qed.

Lemma run_call (be : Backend) (wr : Write) (w : World) :
  run be (call wr) w = (Normal tt, mkWorld (apply_write wr (store w)) (trace w)).
Proof. reflexivity. Qed.

(** The outcome of [api] depends on the requests sent so far, not on the
    React state. *)
Lemma run_api_store (be : Backend) (path : string) (opts : Opts)
    (s : Store) (w : World) :
  fst (run be (api path opts) (mkWorld s (trace w))) =
  fst (run be (api path opts) w).
Proof.
  unfold api; simpl.
  settle (be (trace w) (request path opts)); reflexivity.
Qed.

(** [refreshAll; pollGmail; loadAgentStatus], the tail of ingest,
    process-next and run-loop. *)
Lemma run_refresh_with_poll (be : Backend) (w : World) :
  exists w',
    run be (refreshAll ;; pollGmail ;; loadAgentStatus) w = (Normal tt, w') /\
    trace w' =
    (trace w ++ [get "/analytics/summary"; get "/logs"; get "/gmail/poll";
                 get "/agent/status"])%list /\
    statusMsg (store w') = statusMsg (store w).
Proof.
  destruct (run_refreshAll be w) as (s1 & H1 & M1 & _).
  destruct (run_pollGmail be (mkWorld s1
              (trace w ++ [get "/analytics/summary"; get "/logs"])))
    as (s2 & H2 & M2 & _).
  destruct (run_loadAgentStatus be (mkWorld s2
              ((trace w ++ [get "/analytics/summary"; get "/logs"])
                 ++ [get "/gmail/poll"])))
    as (s3 & H3 & M3 & _).
  cbn [trace store] in *.
  eexists. rewrite run_bind, H1; cbv beta iota.
  rewrite run_bind, H2; cbv beta iota. rewrite H3.
  split; [reflexivity | simpl; split].
  - now rewrite <- !app_assoc.
  - congruence.
Qed.

(** [refreshAll; loadAgentStatus], the tail of seed. *)
Lemma run_refresh_without_poll (be : Backend) (w : World) :
  exists w',
    run be (refreshAll ;; loadAgentStatus) w = (Normal tt, w') /\
    trace w' =
    (trace w ++ [get "/analytics/summary"; get "/logs";
                 get "/agent/status"])%list /\
    statusMsg (store w') = statusMsg (store w).
Proof.
  destruct (run_refreshAll be w) as (s1 & H1 & M1 & _).
  destruct (run_loadAgentStatus be (mkWorld s1
              (trace w ++ [get "/analytics/summary"; get "/logs"])))
    as (s3 & H3 & M3 & _).
  cbn [trace store] in *.
  eexists. rewrite run_bind, H1; cbv beta iota. rewrite H3.
  split; [reflexivity | simpl; split].
  - now rewrite <- !app_assoc.
  - congruence.
Qed.

(** ** Transport client *)

(** C8: when the response status is outside the success range 200-299,
    [api] fails with an error whose message is the numeric status, a space
    and the status text; [api] returns a value only for a response inside
    that range, and the value is then the parsed JSON body. *)
Theorem api_fails_outside_success_range
    (be : Backend) (path : string) (opts : Opts) (w : World)
    (res : Response) :
  be (trace w) (request path opts) = Resolved res ->
  (~ (200 <= status res <= 299) ->
   fst (run be (api path opts) w) =
   Thrown (new_Error (decimal (status res) ++ " " ++ statusText res))) /\
  (forall v,
     fst (run be (api path opts) w) = Normal v ->
     200 <= status res <= 299 /\ json res = inr v).
Proof.
  intros Hres. unfold api; simpl. rewrite Hres; simpl. unfold ok.
  destruct (200 <=? status res) eqn:Hlo; destruct (status res <=? 299) eqn:Hhi;
    simpl; split;
    try (intros Hout; try reflexivity; exfalso; apply Hout; lia);
    try (intros v Hv; discriminate Hv).
  intros v Hv. split; [lia | ].
  destruct (json res) as [e | b]; simpl in Hv; [discriminate Hv | ].
  now inversion Hv.
Qed.

(** ** Queue poll *)

(** C7: the queue poll never throws, whatever the backend does; when its
    request fails the stored queue becomes the empty array; and whatever
    code follows the poll runs, from the state the poll left. *)
Theorem pollGmail_contains_failure (be : Backend) (w : World) :
  fst (run be pollGmail w) = Normal tt /\
  (forall e,
     fst (run be (api "/gmail/poll" no_opts) w) = Thrown e ->
     gmailQueue (store (snd (run be pollGmail w))) = JArr []) /\
  (forall (A : Type) (next : Prog A),
     run be (pollGmail ;; next) w = run be next (snd (run be pollGmail w))).
Proof.
  destruct (run_pollGmail be w) as (s & Hrun & _).
  split; [now rewrite Hrun | split].
  - intros e He. unfold pollGmail.
    rewrite run_try_catch, run_bind, run_api, He. reflexivity.
  - intros A next. now rewrite run_bind, Hrun.
Qed.

(** C10: after a successful queue poll the stored queue is the empty array
    when the body has no [items] field or a null one (and when the body is
    not an object at all), and is the body's [items] array otherwise. *)
Theorem pollGmail_stores_items (be : Backend) (w : World) (res : JSVal) :
  fst (run be (api "/gmail/poll" no_opts) w) = Normal res ->
  (forall fields,
     res = JObj fields ->
     lookup_field "items" fields = None \/
     lookup_field "items" fields = Some JNull ->
     gmailQueue (store (snd (run be pollGmail w))) = JArr []) /\
  ((forall fields, res <> JObj fields) ->
   gmailQueue (store (snd (run be pollGmail w))) = JArr []) /\
  (forall fields xs,
     res = JObj fields ->
     lookup_field "items" fields = Some (JArr xs) ->
     gmailQueue (store (snd (run be pollGmail w))) = JArr xs).
Proof.
  intros Hok. unfold pollGmail.
  rewrite run_try_catch, run_bind, run_api, Hok.
  split; [ | split].
  - intros fields -> [Hl | Hl]; simpl; rewrite Hl; reflexivity.
  - intros Hno. destruct res; simpl; try reflexivity.
    now destruct (Hno fields).
  - intros fields xs -> Hl. simpl. rewrite Hl. reflexivity.
Qed.

(** ** Analytics and logs refresh *)

(** C2 (as the code has it): in every run of [refreshAll], a failed
    analytics request leaves the stored summary as it was, a failed logs
    request stores the empty array as the log list, and a request that
    succeeds with a truthy body (any object or array) has that body stored,
    whatever happens to the other request. *)
Theorem refreshAll_independent_failures (be : Backend) (w : World) :
  let w1 := mkWorld (store w) (trace w ++ [get "/analytics/summary"]) in
  let after := store (snd (run be refreshAll w)) in
  (forall e,
     fst (run be (api "/analytics/summary" no_opts) w) = Thrown e ->
     analytics after = analytics (store w)) /\
  (forall e,
     fst (run be (api "/logs" no_opts) w1) = Thrown e ->
     logs after = JArr []) /\
  (forall v,
     fst (run be (api "/analytics/summary" no_opts) w) = Normal v ->
     truthy v = true ->
     analytics after = v) /\
  (forall v,
     fst (run be (api "/logs" no_opts) w1) = Normal v ->
     truthy v = true ->
     logs after = v).
Proof.
  unfold refreshAll, api; simpl.
  fold (get "/analytics/summary"); fold (get "/logs").
  settle (be (trace w) (get "/analytics/summary"));
    settle (be (trace w ++ [get "/analytics/summary"])%list (get "/logs"));
    repeat match goal with
           | |- context [truthy ?v] => destruct (truthy v) eqn:?; simpl
           end;
    repeat split; intros; try reflexivity; congruence.
Qed.

(** ** Mutating actions *)

(** Takes a mutating action up to the outcome of its primary request. *)
Ltac enter_action H :=
  repeat (first [rewrite run_bind | rewrite run_call | rewrite run_ret
                 | rewrite run_try_catch];
          cbv beta iota; cbn [store trace]);
  rewrite run_api, ?run_api_store, H; cbv beta iota; cbn [store trace].

(** C1 (as the code has it): when the primary request of seed, ingest,
    process-next or run-loop fails, the action ends normally with the status
    message set to its failure phrase followed by the error's message, the
    rest of the state unchanged, and no request sent after the failed one:
    the refreshes are not run. *)
Theorem failed_action_reports_without_refresh
    (be : Backend) (w : World) (e : Error) :
  (fst (run be (api "/seed/vendors" seed_opts) w) = Thrown e ->
   run be handleSeed w =
   (Normal tt,
    mkWorld
      (apply_write (setStatusMsg ("Failed to seed: " ++ message e)) (store w))
      (trace w ++ [request "/seed/vendors" seed_opts]))) /\
  (forall form,
     fst (run be (api "/ingest/mock-email" (ingest_opts form)) w) = Thrown e ->
     run be (handleIngest form) w =
     (Normal tt,
      mkWorld
        (apply_write (setStatusMsg ("Failed to ingest: " ++ message e))
           (store w))
        (trace w ++ [request "/ingest/mock-email" (ingest_opts form)]))) /\
  (forall showMsg,
     fst (run be (api "/agent/run-once" (post None)) w) = Thrown e ->
     run be (runOnce showMsg) w =
     (Normal tt,
      mkWorld
        (apply_write (setStatusMsg ("Process failed: " ++ message e))
           (store w))
        (trace w ++ [request "/agent/run-once" (post None)]))) /\
  (forall steps,
     fst (run be (api "/agent/run-loop" (run_loop_opts steps)) w) = Thrown e ->
     run be (runLoop steps) w =
     (Normal tt,
      mkWorld
        (apply_write (setStatusMsg ("Run-loop failed: " ++ message e))
           (store w))
        (trace w ++ [request "/agent/run-loop" (run_loop_opts steps)]))).
Proof.
  split; [ | split; [ | split]].
  - intros H. unfold handleSeed. fold seed_opts. enter_action H. reflexivity.
  - intros form H. unfold handleIngest. fold (ingest_opts form).
    enter_action H. reflexivity.
  - intros showMsg H. unfold runOnce.
    destruct showMsg; cbn [when]; enter_action H; reflexivity.
  - intros steps H. unfold runLoop. fold (run_loop_opts steps).
    enter_action H. reflexivity.
Qed.

(** Runs the state setters at the head of a sequence. *)
Ltac run_setters :=
  repeat (rewrite run_bind, run_call; cbv beta iota; cbn [store trace]).

(** Reads a property off the body of the primary response. *)
Ltac read_prop H :=
  rewrite run_bind, H; cbn [lift]; rewrite run_ret; cbv beta iota.

Ltac refresh_tail lemma :=
  match goal with
  | |- context [run ?be (refreshAll ;; ?rest) ?W] =>
      let w' := fresh "w'" in
      let Hrun := fresh "Hrun" in
      let Htrace := fresh "Htrace" in
      let Hmsg := fresh "Hmsg" in
      destruct (lemma be W) as (w' & Hrun & Htrace & Hmsg);
      rewrite Hrun; cbn [store trace fst snd] in *
  end.

(** C3 (as the code has it): after a mutating action whose primary request
    succeeds, ingest, process-next and run-loop send the four refresh
    requests in the order analytics, logs, queue, status; seed sends
    analytics, logs, status and no queue poll. *)
Theorem successful_action_refresh_order (be : Backend) (w : World) :
  (forall v,
     fst (run be (api "/seed/vendors" seed_opts) w) = Normal v ->
     trace (snd (run be handleSeed w)) =
     (trace w ++ [request "/seed/vendors" seed_opts;
                  get "/analytics/summary"; get "/logs";
                  get "/agent/status"])%list) /\
  (forall form v,
     fst (run be (api "/ingest/mock-email" (ingest_opts form)) w) = Normal v ->
     trace (snd (run be (handleIngest form) w)) =
     (trace w ++ [request "/ingest/mock-email" (ingest_opts form);
                  get "/analytics/summary"; get "/logs"; get "/gmail/poll";
                  get "/agent/status"])%list) /\
  (forall showMsg res p,
     fst (run be (api "/agent/run-once" (post None)) w) = Normal res ->
     get_prop res "processed" = inr p ->
     trace (snd (run be (runOnce showMsg) w)) =
     (trace w ++ [request "/agent/run-once" (post None);
                  get "/analytics/summary"; get "/logs"; get "/gmail/poll";
                  get "/agent/status"])%list) /\
  (forall steps res p,
     fst (run be (api "/agent/run-loop" (run_loop_opts steps)) w)
     = Normal res ->
     get_prop res "processed" = inr p ->
     trace (snd (run be (runLoop steps) w)) =
     (trace w ++ [request "/agent/run-loop" (run_loop_opts steps);
                  get "/analytics/summary"; get "/logs"; get "/gmail/poll";
                  get "/agent/status"])%list).
Proof.
  split; [ | split; [ | split]].
  - intros v H. unfold handleSeed. fold seed_opts. enter_action H.
    run_setters. refresh_tail run_refresh_without_poll.
    now rewrite Htrace, <- app_assoc.
  - intros form v H. unfold handleIngest. fold (ingest_opts form).
    enter_action H. run_setters. refresh_tail run_refresh_with_poll.
    now rewrite Htrace, <- app_assoc.
  - intros showMsg res p H Hp. unfold runOnce.
    destruct showMsg; cbn [when]; enter_action H; read_prop Hp;
      destruct (truthy p); run_setters;
      refresh_tail run_refresh_with_poll;
      now rewrite Htrace, <- app_assoc.
  - intros steps res p H Hp. unfold runLoop. fold (run_loop_opts steps).
    enter_action H. read_prop Hp. run_setters.
    refresh_tail run_refresh_with_poll.
    now rewrite Htrace, <- app_assoc.
Qed.

(** C5: in every run of process-next whose request succeeds, a response
    with [processed = true] leaves the success phrase as status message, and
    a response with [processed = false] leaves exactly "No emails pending."
    and is followed by GET requests only: the one POST is the request of the
    action itself. *)
Theorem runOnce_status_phrases
    (be : Backend) (w : World) (showMsg : bool) (res : JSVal) :
  fst (run be (api "/agent/run-once" (post None)) w) = Normal res ->
  (get_prop res "processed" = inr (JBool true) ->
   statusMsg (store (snd (run be (runOnce showMsg) w))) =
   "Processed one email and replied (mock).") /\
  (get_prop res "processed" = inr (JBool false) ->
   statusMsg (store (snd (run be (runOnce showMsg) w))) =
   "No emails pending." /\
   exists rest,
     trace (snd (run be (runOnce showMsg) w)) =
     (trace w ++ request "/agent/run-once" (post None) :: rest)%list /\
     Forall (fun r => request_method r = "GET") rest).
Proof.
  intros H; split; intros Hp; unfold runOnce;
    destruct showMsg; cbn [when]; enter_action H; read_prop Hp;
    cbn [truthy]; run_setters; refresh_tail run_refresh_with_poll;
    try (rewrite Hmsg; reflexivity);
    (split; [rewrite Hmsg; reflexivity | ]);
    eexists; (split; [rewrite Htrace, <- app_assoc; reflexivity | ]);
    repeat constructor.
Qed.

Lemma append_same_prefix (s a b : string) : s ++ a = s ++ b -> a = b.
Proof.
  induction s as [ | c s IH]; simpl; intros H; [assumption | ].
  apply IH. now inversion H.
Qed.

Lemma get_is_not_run_loop (path : string) :
  path <> "/agent/run-loop" ->
  url (get path) <> BACKEND_URL ++ "/agent/run-loop".
Proof.
  intros Hne Heq. apply Hne. simpl in Heq.
  exact (append_same_prefix _ _ _ Heq).
Qed.

(** C6: every run of run-loop with a bound [n > 0] sends exactly one request
    to the run-loop endpoint, a POST whose body is [{max_steps: n}], and
    when that request succeeds the status message reports the [processed]
    count of the response, whatever its value: any safe integer, zero and
    negative ones included, printed in decimal. *)
Theorem runLoop_single_bounded_request (be : Backend) (w : World) (n : Z) :
  0 < n ->
  (exists rest,
     trace (snd (run be (runLoop n) w)) =
     (trace w ++ request "/agent/run-loop" (run_loop_opts n) :: rest)%list /\
     Forall (fun r => url r <> BACKEND_URL ++ "/agent/run-loop") rest) /\
  url (request "/agent/run-loop" (run_loop_opts n)) =
  BACKEND_URL ++ "/agent/run-loop" /\
  request_method (request "/agent/run-loop" (run_loop_opts n)) = "POST" /\
  body (init (request "/agent/run-loop" (run_loop_opts n))) =
  Some (JSON_stringify (JObj [("max_steps", JNum n)])) /\
  (forall res k,
     fst (run be (api "/agent/run-loop" (run_loop_opts n)) w) = Normal res ->
     get_prop res "processed" = inr (JNum k) ->
     safe_integer k ->
     statusMsg (store (snd (run be (runLoop n) w))) =
     "Loop done. Processed " ++ decimal k ++ " messages.").
Proof.
  intros _. split; [ | repeat split].
  - destruct (fst (run be (api "/agent/run-loop" (run_loop_opts n)) w))
      as [res | e] eqn:H.
    + destruct (get_prop res "processed") as [e | p] eqn:Hp.
      * unfold runLoop. fold (run_loop_opts n). enter_action H.
        rewrite run_bind, Hp; cbn [lift run]; cbv beta iota.
        rewrite run_call; cbn [store trace snd].
        exists []. split; [reflexivity | constructor].
      * unfold runLoop. fold (run_loop_opts n). enter_action H.
        read_prop Hp. run_setters. refresh_tail run_refresh_with_poll.
        eexists; split; [rewrite Htrace, <- app_assoc; reflexivity | ].
        repeat constructor; apply get_is_not_run_loop; discriminate.
    + unfold runLoop. fold (run_loop_opts n). enter_action H.
      rewrite run_call; cbn [store trace snd].
      exists []. split; [reflexivity | constructor].
  - intros res k H Hp _. unfold runLoop. fold (run_loop_opts n).
    enter_action H. read_prop Hp. run_setters.
    refresh_tail run_refresh_with_poll.
    rewrite Hmsg. reflexivity.
Qed.

(** ** Timer discipline *)

Lemma continue_orchestration (o : Origin) (done : list Request)
    (p : Prog unit) (others : list Task) (pg : Page) :
  let q := continue o done p others pg in
  autoRun q = autoRun pg /\ intervalRef q = intervalRef pg /\
  timers q = timers pg /\ next_timer q = next_timer pg /\
  mounted q = mounted pg.
Proof. cbv zeta. unfold continue. simpl. auto. Qed.

Lemma continue_timer_inv (o : Origin) (done : list Request)
    (p : Prog unit) (others : list Task) (pg : Page) :
  timer_inv pg -> timer_inv (continue o done p others pg).
Proof. unfold timer_inv, continue. simpl. auto. Qed.

Lemma filter_out_single (id : TimerId) :
  filter (fun t => negb (Pos.eqb t id)) [id] = [].
Proof. simpl. now rewrite Pos.eqb_refl. Qed.

Lemma setAutoRun_timer_inv (b : bool) (pg : Page) :
  mounted pg = true -> timer_inv pg -> timer_inv (setAutoRun b pg).
Proof.
  intros Hm. unfold timer_inv, setAutoRun.
  destruct (intervalRef pg) as [id | ] eqn:Href;
    intros H; decompose [and] H; clear H;
    match goal with Ha : autoRun pg = _ |- _ => rewrite Ha end;
    destruct b; simpl; rewrite ?Href; try (repeat split; assumption).
  - rewrite Hm in *.
    match goal with Ht : timers pg = _ |- _ => rewrite Ht end.
    rewrite filter_out_single. simpl. auto.
  - rewrite Hm.
    match goal with Ht : timers pg = _ |- _ => rewrite Ht end.
    repeat split. apply Pos.lt_succ_diag_r.
Qed.

Lemma mount_timer_inv : timer_inv mount.
Proof. unfold timer_inv. simpl. auto. Qed.

Lemma step_timer_inv (pg q : Page) (ev : Event) :
  timer_inv pg -> step pg ev = Some q -> timer_inv q.
Proof.
  intros Hinv. destruct ev as [ | | a | id | i os | ]; simpl.
  - destruct (mounted pg) eqn:Hm; [ | discriminate].
    intros [= <-]. now apply setAutoRun_timer_inv.
  - destruct (mounted pg) eqn:Hm; [ | discriminate].
    intros [= <-]. now apply setAutoRun_timer_inv.
  - destruct (mounted pg); [ | discriminate].
    intros [= <-]. now apply continue_timer_inv.
  - destruct (existsb (Pos.eqb id) (timers pg)); [ | discriminate].
    intros [= <-]. now apply continue_timer_inv.
  - destruct (nth_error (inflight pg) i) as [t | ]; [ | discriminate].
    destruct (resume t os) as [[rs p] | ]; [ | discriminate].
    intros [= <-]. now apply continue_timer_inv.
  - destruct (mounted pg) eqn:Hm; [ | discriminate].
    intros [= <-]. revert Hinv.
    unfold timer_inv, autoRun_cleanup, clear_current. rewrite Hm.
    destruct (intervalRef pg) as [id | ] eqn:Href; simpl; rewrite ?Href.
    + intros (Ha & Ht & Hlt). rewrite Ht, filter_out_single. auto.
    + auto.
Qed.

Lemma exec_timer_inv (evs : list Event) :
  forall pg q, timer_inv pg -> exec pg evs = Some q -> timer_inv q.
Proof.
  induction evs as [ | ev evs IH]; simpl; intros pg q Hinv.
  - now intros [= <-].
  - destruct (step pg ev) as [pg1 | ] eqn:Hstep; [ | discriminate].
    apply IH. eapply step_timer_inv; eassumption.
Qed.

Lemma setAutoRun_autoRun (b : bool) (pg : Page) :
  autoRun (setAutoRun b pg) = b.
Proof.
  unfold setAutoRun. destruct (Bool.eqb b (autoRun pg)) eqn:Heq.
  - symmetry. now apply Bool.eqb_prop.
  - unfold autoRun_effect, autoRun_cleanup, clear_current; simpl.
    destruct b; simpl; destruct (intervalRef pg); reflexivity.
Qed.

Lemma setAutoRun_mounted (b : bool) (pg : Page) :
  mounted (setAutoRun b pg) = mounted pg.
Proof.
  unfold setAutoRun. destruct (Bool.eqb b (autoRun pg)); [reflexivity | ].
  unfold autoRun_effect, autoRun_cleanup, clear_current; simpl.
  destruct b; simpl; destruct (intervalRef pg); reflexivity.
Qed.

(** C4: in every state the console reaches from its first render, the timer
    handle is set exactly when auto-run is on and at most one timer is
    active; starting the automatic cycle, also while it is already on,
    leaves exactly one active timer, the one the handle names; and the
    effect body run while a timer is active clears that timer before it
    arms the new one. *)
Theorem one_timer_iff_autoRun (evs : list Event) (pg : Page) :
  exec mount evs = Some pg ->
  (intervalRef pg <> None <-> autoRun pg = true) /\
  (length (timers pg) <= 1)%nat /\
  (forall pg',
     step pg StartAuto = Some pg' ->
     autoRun pg' = true /\
     exists id, timers pg' = [id] /\ intervalRef pg' = Some id) /\
  (autoRun pg = true -> mounted pg = true ->
   exists old new,
     timers pg = [old] /\
     timers (autoRun_effect pg) = [new] /\
     intervalRef (autoRun_effect pg) = Some new /\
     new <> old).
Proof.
  intros Hexec.
  assert (Hinv : timer_inv pg)
    by (eapply exec_timer_inv; [apply mount_timer_inv | eassumption]).
  split; [ | split; [ | split]].
  - unfold timer_inv in Hinv.
    destruct (intervalRef pg); destruct Hinv as (Ha & _); rewrite Ha;
      split; congruence.
  - unfold timer_inv in Hinv.
    destruct (intervalRef pg); [destruct Hinv as (_ & Ht & _)
                               | destruct Hinv as (_ & Ht)];
      rewrite Ht; [destruct (mounted pg) | ]; simpl; lia.
  - intros pg'. simpl. destruct (mounted pg) eqn:Hm; [ | discriminate].
    intros [= <-].
    pose proof (setAutoRun_timer_inv true pg Hm Hinv) as Hinv'.
    pose proof (setAutoRun_autoRun true pg) as Hon.
    pose proof (setAutoRun_mounted true pg) as Hm'.
    split; [assumption | ].
    unfold timer_inv in Hinv'. rewrite Hm', Hm in Hinv'.
    destruct (intervalRef (setAutoRun true pg)) as [id | ].
    + exists id. now destruct Hinv' as (_ & Ht & _).
    + destruct Hinv' as (Hoff & _). congruence.
  - intros Hon Hm. unfold timer_inv in Hinv.
    destruct (intervalRef pg) as [old | ] eqn:Href;
      [ | destruct Hinv; congruence].
    destruct Hinv as (_ & Ht & Hlt). rewrite Hm in Ht.
    exists old, (next_timer pg).
    unfold autoRun_effect, clear_current. rewrite Hon, Href. simpl.
    rewrite Ht, filter_out_single.
    repeat split; try assumption.
    intros Heq. rewrite Heq in Hlt. exact (Pos.lt_irrefl _ Hlt).
Qed.

(** ** Functions in flight *)

Section Always.

Context {A : Type}.




End Always.










Lemma Forall_remove_nth {T : Type} (P : T -> Prop) (l : list T) :
  forall i, Forall P l -> Forall P (remove_nth i l).
Proof.
  induction l as [ | x l IH]; intros i Hall; [destruct i; constructor | ].
  inversion Hall; subst. destruct i; simpl; [assumption | ].
  constructor; auto.
Qed.












(** ** The refreshers, one by one *)

(** X1: whatever the backend answers, [refreshAll] ends normally having
    sent the analytics and the logs request, with the loading flag cleared,
    and touches neither the status line, the seeded mark, the agent
    configuration and status, nor the queue. *)
Theorem refreshAll_clears_loading (be : Backend) (w : World) :
  fst (run be refreshAll w) = Normal tt /\
  trace (snd (run be refreshAll w)) =
  (trace w ++ [get "/analytics/summary"; get "/logs"])%list /\
  loading (store (snd (run be refreshAll w))) = false /\
  seeded (store (snd (run be refreshAll w))) = seeded (store w) /\
  statusMsg (store (snd (run be refreshAll w))) = statusMsg (store w) /\
  agentConfig (store (snd (run be refreshAll w))) = agentConfig (store w) /\
  agentStatus (store (snd (run be refreshAll w))) = agentStatus (store w) /\
  gmailQueue (store (snd (run be refreshAll w))) = gmailQueue (store w).
Proof.
  unfold refreshAll, api; simpl.
  fold (get "/analytics/summary"); fold (get "/logs").
  settle (be (trace w) (get "/analytics/summary"));
    settle (be (trace w ++ [get "/analytics/summary"])%list (get "/logs"));
    repeat match goal with
           | |- context [truthy ?v] => destruct (truthy v); simpl
           end;
    repeat split; reflexivity.
Qed.

(** X2: [loadAgentStatus] never throws; when its request fails the whole
    state is left as it was, and when it succeeds the body is stored as the
    agent status whatever it is (a [null] body too) and nothing else
    changes. *)
Theorem loadAgentStatus_stores_any_body (be : Backend) (w : World) :
  fst (run be loadAgentStatus w) = Normal tt /\
  (forall e,
     fst (run be (api "/agent/status" no_opts) w) = Thrown e ->
     store (snd (run be loadAgentStatus w)) = store w) /\
  (forall v,
     fst (run be (api "/agent/status" no_opts) w) = Normal v ->
     store (snd (run be loadAgentStatus w)) =
     apply_write (setAgentStatus v) (store w)).
Proof.
  unfold loadAgentStatus.
  rewrite run_try_catch, run_bind, run_api.
  destruct (fst (run be (api "/agent/status" no_opts) w)) as [v | e];
    simpl; repeat split; intros; try reflexivity; congruence.
Qed.

(** X3: [loadAgentMeta] never throws and sends the configuration and the
    status request; each of the two is stored when its request succeeds
    with a truthy body and is left as it was otherwise (failure, or a body
    such as [null]), whatever happens to the other; the rest of the state is
    untouched. *)
Theorem loadAgentMeta_keeps_prior_on_failure (be : Backend) (w : World) :
  let w1 := mkWorld (store w) (trace w ++ [get "/agent/config"]) in
  let after := store (snd (run be loadAgentMeta w)) in
  fst (run be loadAgentMeta w) = Normal tt /\
  trace (snd (run be loadAgentMeta w)) =
  (trace w ++ [get "/agent/config"; get "/agent/status"])%list /\
  agentConfig after =
  match fst (run be (api "/agent/config" no_opts) w) with
  | Normal v => if truthy v then v else agentConfig (store w)
  | Thrown _ => agentConfig (store w)
  end /\
  agentStatus after =
  match fst (run be (api "/agent/status" no_opts) w1) with
  | Normal v => if truthy v then v else agentStatus (store w)
  | Thrown _ => agentStatus (store w)
  end /\
  loading after = loading (store w) /\
  seeded after = seeded (store w) /\
  logs after = logs (store w) /\
  analytics after = analytics (store w) /\
  statusMsg after = statusMsg (store w) /\
  gmailQueue after = gmailQueue (store w).
Proof.
  unfold loadAgentMeta, api; simpl.
  fold (get "/agent/config"); fold (get "/agent/status").
  settle (be (trace w) (get "/agent/config"));
    settle (be (trace w ++ [get "/agent/config"])%list (get "/agent/status"));
    repeat match goal with
           | |- context [truthy ?v] => destruct (truthy v); simpl
           end;
    repeat split; reflexivity.
Qed.

(** ** The actions, end to end *)

Lemma run_tick_refresh (be : Backend) (w : World) :
  exists w',
    run be (pollGmail ;; refreshAll ;; loadAgentStatus) w = (Normal tt, w') /\
    trace w' =
    (trace w ++ [get "/gmail/poll"; get "/analytics/summary"; get "/logs";
                 get "/agent/status"])%list /\
    statusMsg (store w') = statusMsg (store w).
Proof.
  destruct (run_pollGmail be w) as (s1 & H1 & M1 & _).
  destruct (run_refreshAll be (mkWorld s1 (trace w ++ [get "/gmail/poll"])))
    as (s2 & H2 & M2 & _).
  destruct (run_loadAgentStatus be (mkWorld s2
              ((trace w ++ [get "/gmail/poll"])
                 ++ [get "/analytics/summary"; get "/logs"])))
    as (s3 & H3 & M3 & _).
  cbn [trace store] in *.
  eexists. rewrite run_bind, H1; cbv beta iota.
  rewrite run_bind, H2; cbv beta iota. rewrite H3.
  split; [reflexivity | simpl; split].
  - now rewrite <- !app_assoc.
  - congruence.
Qed.

Lemma run_runOnce_success (be : Backend) (w : World) (showMsg : bool)
    (res p : JSVal) :
  fst (run be (api "/agent/run-once" (post None)) w) = Normal res ->
  get_prop res "processed" = inr p ->
  exists w',
    run be (runOnce showMsg) w = (Normal tt, w') /\
    trace w' =
    (trace w ++ [request "/agent/run-once" (post None);
                 get "/analytics/summary"; get "/logs"; get "/gmail/poll";
                 get "/agent/status"])%list /\
    statusMsg (store w') =
    (if truthy p then "Processed one email and replied (mock)."
     else "No emails pending.").
Proof.
  intros H Hp. unfold runOnce.
  destruct showMsg; cbn [when]; enter_action H; read_prop Hp;
    destruct (truthy p); run_setters; refresh_tail run_refresh_with_poll;
    eexists; (split; [reflexivity | ]);
    (split; [now rewrite Htrace, <- app_assoc | exact Hmsg]).
Qed.

Lemma run_runOnce_failure (be : Backend) (w : World) (showMsg : bool)
    (e : Error) :
  fst (run be (api "/agent/run-once" (post None)) w) = Thrown e ->
  run be (runOnce showMsg) w =
  (Normal tt,
   mkWorld
     (apply_write (setStatusMsg ("Process failed: " ++ message e)) (store w))
     (trace w ++ [request "/agent/run-once" (post None)])).
Proof.
  intros H. unfold runOnce.
  destruct showMsg; cbn [when]; enter_action H; reflexivity.
Qed.

(** A body on which the read of [processed] throws. *)
Lemma run_runOnce_unreadable (be : Backend) (w : World) (showMsg : bool)
    (res : JSVal) (e : Error) :
  fst (run be (api "/agent/run-once" (post None)) w) = Normal res ->
  get_prop res "processed" = inl e ->
  run be (runOnce showMsg) w =
  (Normal tt,
   mkWorld
     (apply_write (setStatusMsg ("Process failed: " ++ message e)) (store w))
     (trace w ++ [request "/agent/run-once" (post None)])).
Proof.
  intros H Hp. unfold runOnce.
  destruct showMsg; cbn [when]; enter_action H;
    rewrite run_bind, Hp; cbn [lift run]; cbv beta iota;
    rewrite run_call; reflexivity.
Qed.

(** X4: process-next reads [processed] by truthiness: any truthy value
    (true, a non-zero number, an object) gives the success phrase, and any
    falsy or missing value gives "No emails pending.". *)
Theorem runOnce_reads_processed_by_truthiness
    (be : Backend) (w : World) (showMsg : bool) (res p : JSVal) :
  fst (run be (api "/agent/run-once" (post None)) w) = Normal res ->
  get_prop res "processed" = inr p ->
  statusMsg (store (snd (run be (runOnce showMsg) w))) =
  (if truthy p then "Processed one email and replied (mock)."
   else "No emails pending.").
Proof.
  intros H Hp.
  destruct (run_runOnce_success be w showMsg res p H Hp)
    as (w' & Hrun & _ & Hmsg).
  now rewrite Hrun.
Qed.

(** X5: a response to process-next or run-loop that is successful but
    whose body is [null] counts as a failure: the status line shows the
    failure phrase with the TypeError of the property read, and no refresh
    request is sent. *)
Theorem null_body_is_reported_as_failure (be : Backend) (w : World) :
  (forall showMsg,
     fst (run be (api "/agent/run-once" (post None)) w) = Normal JNull ->
     run be (runOnce showMsg) w =
     (Normal tt,
      mkWorld
        (apply_write
           (setStatusMsg
              ("Process failed: "
                 ++ message (TypeError_read JNull "processed")))
           (store w))
        (trace w ++ [request "/agent/run-once" (post None)]))) /\
  (forall steps,
     fst (run be (api "/agent/run-loop" (run_loop_opts steps)) w)
     = Normal JNull ->
     run be (runLoop steps) w =
     (Normal tt,
      mkWorld
        (apply_write
           (setStatusMsg
              ("Run-loop failed: "
                 ++ message (TypeError_read JNull "processed")))
           (store w))
        (trace w ++ [request "/agent/run-loop" (run_loop_opts steps)]))).
Proof.
  split.
  - intros showMsg H.
    now apply (run_runOnce_unreadable be w showMsg JNull).
  - intros steps H. unfold runLoop. fold (run_loop_opts steps).
    enter_action H. reflexivity.
Qed.

(** X6: a timer tick never throws; when its run-once request succeeds
    with a body whose [processed] can be read, it sends every refresh
    request twice (once inside [runOnce], once by the tick itself, in a
    different order); when the request fails, or succeeds with a body such
    as [null] on which the read throws, it sends its own refresh sequence
    queue, analytics, logs, status and nothing more. *)
Theorem tick_refreshes_twice (be : Backend) (w : World) :
  fst (run be tick w) = Normal tt /\
  (forall res p,
     fst (run be (api "/agent/run-once" (post None)) w) = Normal res ->
     get_prop res "processed" = inr p ->
     trace (snd (run be tick w)) =
     (trace w ++ [request "/agent/run-once" (post None);
                  get "/analytics/summary"; get "/logs"; get "/gmail/poll";
                  get "/agent/status";
                  get "/gmail/poll"; get "/analytics/summary"; get "/logs";
                  get "/agent/status"])%list) /\
  (forall e,
     fst (run be (api "/agent/run-once" (post None)) w) = Thrown e ->
     trace (snd (run be tick w)) =
     (trace w ++ [request "/agent/run-once" (post None);
                  get "/gmail/poll"; get "/analytics/summary"; get "/logs";
                  get "/agent/status"])%list) /\
  (forall res e,
     fst (run be (api "/agent/run-once" (post None)) w) = Normal res ->
     get_prop res "processed" = inl e ->
     trace (snd (run be tick w)) =
     (trace w ++ [request "/agent/run-once" (post None);
                  get "/gmail/poll"; get "/analytics/summary"; get "/logs";
                  get "/agent/status"])%list).
Proof.
  unfold tick. rewrite run_bind.
  destruct (fst (run be (api "/agent/run-once" (post None)) w))
    as [res | e] eqn:H.
  - destruct (get_prop res "processed") as [e | p] eqn:Hp.
    + rewrite (run_runOnce_unreadable be w false res e H Hp).
      match goal with
      | |- context [run be (pollGmail ;; _) ?W] =>
          destruct (run_tick_refresh be W) as (w' & -> & Ht & _)
      end.
      split; [reflexivity | split; [ | split]].
      * intros res' p' Hres' Hp'. congruence.
      * intros e' He'. discriminate He'.
      * intros res' e' _ _. simpl. rewrite Ht. simpl.
        now rewrite <- app_assoc.
    + destruct (run_runOnce_success be w false res p H Hp)
        as (w1 & -> & Ht1 & _).
      destruct (run_tick_refresh be w1) as (w' & -> & Ht & _).
      split; [reflexivity | split; [ | split]].
      * intros res' p' _ _. simpl. rewrite Ht, Ht1.
        now rewrite <- app_assoc.
      * intros e' He'. discriminate He'.
      * intros res' e' Hres' He'. congruence.
  - rewrite (run_runOnce_failure be w false e H).
    match goal with
    | |- context [run be (pollGmail ;; _) ?W] =>
        destruct (run_tick_refresh be W) as (w' & -> & Ht & _)
    end.
    split; [reflexivity | split; [ | split]].
    + intros res p Hres. discriminate Hres.
    + intros e' _. simpl. rewrite Ht. simpl.
      now rewrite <- app_assoc.
    + intros res e' Hres. discriminate Hres.
Qed.

Lemma refreshAll_keeps_seeded (be : Backend) (w : World) :
  seeded (store (snd (run be refreshAll w))) = seeded (store w).
Proof.
  unfold refreshAll, api; simpl.
  settle (be (trace w) (request "/analytics/summary" no_opts));
    settle (be (trace w ++ [request "/analytics/summary" no_opts])%list
              (request "/logs" no_opts));
    repeat match goal with
           | |- context [truthy ?v] => destruct (truthy v); simpl
           end;
    reflexivity.
Qed.

Lemma loadAgentStatus_keeps_seeded (be : Backend) (w : World) :
  seeded (store (snd (run be loadAgentStatus w))) = seeded (store w).
Proof.
  unfold loadAgentStatus, api; simpl.
  settle (be (trace w) (request "/agent/status" no_opts)); reflexivity.
Qed.

Lemma run_seed_refresh (be : Backend) (w : World) :
  exists w',
    run be (refreshAll ;; loadAgentStatus) w = (Normal tt, w') /\
    seeded (store w') = seeded (store w) /\
    statusMsg (store w') = statusMsg (store w).
Proof.
  destruct (run_refreshAll be w) as (s1 & H1 & M1 & _).
  pose proof (refreshAll_keeps_seeded be w) as K1. rewrite H1 in K1.
  destruct (run_loadAgentStatus be (mkWorld s1
              (trace w ++ [get "/analytics/summary"; get "/logs"])))
    as (s3 & H3 & M3 & _).
  pose proof (loadAgentStatus_keeps_seeded be (mkWorld s1
                (trace w ++ [get "/analytics/summary"; get "/logs"]))) as K3.
  rewrite H3 in K3. cbn [trace store fst snd] in *.
  eexists. rewrite run_bind, H1; cbv beta iota. rewrite H3.
  split; [reflexivity | simpl; split; congruence].
Qed.

(** X7: seed sets the seeded mark exactly when its request succeeds:
    afterwards the mark is on if the request succeeded, and is what it was
    if the request failed. *)
Theorem handleSeed_marks_seeded_on_success (be : Backend) (w : World) :
  seeded (store (snd (run be handleSeed w))) =
  match fst (run be (api "/seed/vendors" seed_opts) w) with
  | Normal _ => true
  | Thrown _ => seeded (store w)
  end.
Proof.
  destruct (fst (run be (api "/seed/vendors" seed_opts) w)) as [v | e] eqn:H;
    unfold handleSeed; fold seed_opts; enter_action H.
  - run_setters.
    match goal with
    | |- context [run be (refreshAll ;; loadAgentStatus) ?W] =>
        destruct (run_seed_refresh be W) as (w' & -> & Hs & _)
    end.
    simpl. rewrite Hs. reflexivity.
  - reflexivity.
Qed.

(** X8: none of the four actions ever throws, and each leaves on the
    status line either its result phrase or its failure phrase followed by
    an error message; the phrase shown while the action is under way never
    stays. *)
Theorem actions_end_with_result_or_failure (be : Backend) (w : World) :
  (fst (run be handleSeed w) = Normal tt /\
   (statusMsg (store (snd (run be handleSeed w))) =
    "Seeded sample vendor requests." \/
    exists e,
      statusMsg (store (snd (run be handleSeed w))) =
      "Failed to seed: " ++ message e)) /\
  (forall form,
     fst (run be (handleIngest form) w) = Normal tt /\
     (statusMsg (store (snd (run be (handleIngest form) w))) =
      "Email ingested. You can now Process Next." \/
      exists e,
        statusMsg (store (snd (run be (handleIngest form) w))) =
        "Failed to ingest: " ++ message e)) /\
  (forall showMsg,
     fst (run be (runOnce showMsg) w) = Normal tt /\
     (statusMsg (store (snd (run be (runOnce showMsg) w))) =
      "Processed one email and replied (mock)." \/
      statusMsg (store (snd (run be (runOnce showMsg) w))) =
      "No emails pending." \/
      exists e,
        statusMsg (store (snd (run be (runOnce showMsg) w))) =
        "Process failed: " ++ message e)) /\
  (forall steps,
     fst (run be (runLoop steps) w) = Normal tt /\
     ((exists p,
         statusMsg (store (snd (run be (runLoop steps) w))) =
         "Loop done. Processed " ++ ToString p ++ " messages.") \/
      exists e,
        statusMsg (store (snd (run be (runLoop steps) w))) =
        "Run-loop failed: " ++ message e)).
Proof.
  split; [ | split; [ | split]].
  - destruct (fst (run be (api "/seed/vendors" seed_opts) w))
      as [v | e] eqn:H; unfold handleSeed; fold seed_opts; enter_action H.
    + run_setters. refresh_tail run_refresh_without_poll.
      split; [reflexivity | left; exact Hmsg].
    + split; [reflexivity | right; exists e; reflexivity].
  - intros form.
    destruct (fst (run be (api "/ingest/mock-email" (ingest_opts form)) w))
      as [v | e] eqn:H; unfold handleIngest; fold (ingest_opts form);
      enter_action H.
    + run_setters. refresh_tail run_refresh_with_poll.
      split; [reflexivity | left; exact Hmsg].
    + split; [reflexivity | right; exists e; reflexivity].
  - intros showMsg.
    destruct (fst (run be (api "/agent/run-once" (post None)) w))
      as [res | e] eqn:H.
    + destruct (get_prop res "processed") as [e | p] eqn:Hp.
      * rewrite (run_runOnce_unreadable be w showMsg res e H Hp).
        split; [reflexivity | right; right; exists e; reflexivity].
      * destruct (run_runOnce_success be w showMsg res p H Hp)
          as (w' & -> & _ & Hmsg).
        split; [reflexivity | ]. simpl. rewrite Hmsg.
        destruct (truthy p); auto.
    + rewrite (run_runOnce_failure be w showMsg e H).
      split; [reflexivity | right; right; exists e; reflexivity].
  - intros steps.
    destruct (fst (run be (api "/agent/run-loop" (run_loop_opts steps)) w))
      as [res | e] eqn:H.
    + destruct (get_prop res "processed") as [e | p] eqn:Hp;
        unfold runLoop; fold (run_loop_opts steps); enter_action H.
      * rewrite run_bind, Hp; cbn [lift run]; cbv beta iota.
        rewrite run_call.
        split; [reflexivity | right; exists e; reflexivity].
      * read_prop Hp. run_setters. refresh_tail run_refresh_with_poll.
        split; [reflexivity | left; exists p; exact Hmsg].
    + unfold runLoop; fold (run_loop_opts steps); enter_action H.
      split; [reflexivity | right; exists e; reflexivity].
Qed.

(** ** Refreshing against a backend that does not change *)

Section Stateless.

Variable be : Backend.
Hypothesis be_stateless : stateless be.

Lemma run_stateless {A : Type} (p : Prog A) :
  forall s t t',
    fst (run be p (mkWorld s t)) = fst (run be p (mkWorld s t')) /\
    store (snd (run be p (mkWorld s t))) =
    store (snd (run be p (mkWorld s t'))).
Proof.
  induction p as [a | e | r k IH | r1 r2 k IH | wr k IH]; intros s t t';
    simpl; auto.
  - rewrite (be_stateless t t' r). apply IH.
  - rewrite (be_stateless t t' r1).
    rewrite (be_stateless (t ++ [r1])%list (t' ++ [r1])%list r2). apply IH.
Qed.

Lemma effect_run {A : Type} (p : Prog A) (w : World) :
  store (snd (run be p w)) = effect be p (store w).
Proof.
  unfold effect. destruct w as [s t]. apply run_stateless.
Qed.

(** The effect of a sequence whose first part never throws. *)
Lemma effect_seq {A C : Type} (p : Prog A) (q : Prog C) (s : Store) :
  (forall w, exists a, fst (run be p w) = Normal a) ->
  effect be (p ;; q) s = effect be q (effect be p s).
Proof.
  intros Hp. unfold effect. rewrite run_bind.
  destruct (Hp (mkWorld s [])) as (a & Ha).
  destruct (run be p (mkWorld s [])) as [c [s' t']].
  simpl in Ha. subst c. simpl. apply run_stateless.
Qed.

Ltac forget_history :=
  repeat match goal with
         | |- context [be (?a :: ?l) ?r] =>
             rewrite (be_stateless (a :: l) [] r)
         end.

Ltac by_outcomes :=
  repeat match goal with
         | |- context [be [] ?r] => settle (be [] r)
         end;
  repeat match goal with
         | |- context [get_prop ?v "items"] =>
             destruct (get_prop v "items"); simpl
         end;
  repeat match goal with
         | |- context [truthy ?v] => destruct (truthy v) eqn:?; simpl
         end;
  try reflexivity.

Lemma refreshAll_normal (w : World) :
  exists a, fst (run be refreshAll w) = Normal a.
Proof. destruct (run_refreshAll be w) as (s & H & _). rewrite H. now exists tt. Qed.

Lemma pollGmail_normal (w : World) :
  exists a, fst (run be pollGmail w) = Normal a.
Proof. destruct (run_pollGmail be w) as (s & H & _). rewrite H. now exists tt. Qed.

Lemma loadAgentStatus_normal (w : World) :
  exists a, fst (run be loadAgentStatus w) = Normal a.
Proof.
  destruct (run_loadAgentStatus be w) as (s & H & _). rewrite H. now exists tt.
Qed.

Lemma refreshAll_twice (s : Store) :
  effect be refreshAll (effect be refreshAll s) = effect be refreshAll s.
Proof.
  unfold effect, refreshAll, api; simpl. forget_history. by_outcomes.
Qed.

Lemma pollGmail_twice (s : Store) :
  effect be pollGmail (effect be pollGmail s) = effect be pollGmail s.
Proof.
  unfold effect, pollGmail, api; simpl. forget_history. by_outcomes.
Qed.

Lemma loadAgentStatus_twice (s : Store) :
  effect be loadAgentStatus (effect be loadAgentStatus s) =
  effect be loadAgentStatus s.
Proof.
  unfold effect, loadAgentStatus, api; simpl. forget_history. by_outcomes.
Qed.

Lemma refreshAll_pollGmail_commute (s : Store) :
  effect be refreshAll (effect be pollGmail s) =
  effect be pollGmail (effect be refreshAll s).
Proof.
  unfold effect, refreshAll, pollGmail, api; simpl. forget_history.
  by_outcomes.
Qed.

Lemma refreshAll_loadAgentStatus_commute (s : Store) :
  effect be refreshAll (effect be loadAgentStatus s) =
  effect be loadAgentStatus (effect be refreshAll s).
Proof.
  unfold effect, refreshAll, loadAgentStatus, api; simpl. forget_history.
  by_outcomes.
Qed.

Lemma pollGmail_loadAgentStatus_commute (s : Store) :
  effect be pollGmail (effect be loadAgentStatus s) =
  effect be loadAgentStatus (effect be pollGmail s).
Proof.
  unfold effect, pollGmail, loadAgentStatus, api; simpl. forget_history.
  by_outcomes.
Qed.

Lemma effect_action_refresh (s : Store) :
  effect be action_refresh s =
  effect be loadAgentStatus (effect be pollGmail (effect be refreshAll s)).
Proof.
  unfold action_refresh.
  rewrite effect_seq by apply refreshAll_normal.
  rewrite effect_seq by apply pollGmail_normal.
  reflexivity.
Qed.

Lemma effect_tick_refresh (s : Store) :
  effect be tick_refresh_steps s =
  effect be loadAgentStatus (effect be refreshAll (effect be pollGmail s)).
Proof.
  unfold tick_refresh_steps.
  rewrite effect_seq by apply pollGmail_normal.
  rewrite effect_seq by apply refreshAll_normal.
  reflexivity.
Qed.

Lemma action_refresh_normal (w : World) :
  exists a, fst (run be action_refresh w) = Normal a.
Proof.
  destruct (run_refresh_with_poll be w) as (w' & H & _).
  unfold action_refresh. rewrite H. now exists tt.
Qed.

End Stateless.

(** X9: against a backend whose answers do not depend on what it has been
    asked before, the refresh sequence is idempotent: running it twice
    leaves the state that running it once leaves. *)
Theorem action_refresh_idempotent (be : Backend) (w : World) :
  stateless be ->
  store (snd (run be (action_refresh ;; action_refresh) w)) =
  store (snd (run be action_refresh w)).
Proof.
  intros Hst.
  rewrite !(effect_run be Hst).
  rewrite (effect_seq be Hst) by apply action_refresh_normal.
  rewrite !(effect_action_refresh be Hst).
  set (s := store w).
  rewrite (refreshAll_loadAgentStatus_commute be Hst).
  rewrite (refreshAll_pollGmail_commute be Hst).
  rewrite (refreshAll_twice be Hst).
  rewrite pollGmail_loadAgentStatus_commute.
  rewrite pollGmail_twice.
  rewrite loadAgentStatus_twice.
  reflexivity.
Qed.

(** X10: against such a backend the order of the refresh steps does not
    matter: the sequence of a timer tick (queue, analytics and logs,
    status) leaves the same state as the sequence of the actions (analytics
    and logs, queue, status). *)
Theorem refresh_order_is_immaterial (be : Backend) (w : World) :
  stateless be ->
  store (snd (run be tick_refresh_steps w)) =
  store (snd (run be action_refresh w)).
Proof.
  intros Hst.
  rewrite !(effect_run be Hst).
  rewrite (effect_action_refresh be Hst), (effect_tick_refresh be Hst).
  now rewrite (refreshAll_pollGmail_commute be Hst).
Qed.

(** ** The requests of the transport client *)

Lemma header_assign_key (k k' v : string) (base : list (string * string)) :
  header k' (assign_key k v base) =
  if String.eqb k k' then Some v else header k' base.
Proof.
  induction base as [ | [k0 v0] base IH]; simpl.
  - reflexivity.
  - destruct (String.eqb k0 k) eqn:E0; simpl.
    + apply String.eqb_eq in E0. subst k0.
      destruct (String.eqb k k'); reflexivity.
    + rewrite IH. destruct (String.eqb k0 k') eqn:E1; [ | reflexivity].
      apply String.eqb_eq in E1. subst k0. now rewrite String.eqb_sym, E0.
Qed.

Lemma header_app (k : string) (l1 l2 : list (string * string)) :
  header k (l1 ++ l2) =
  match header k l1 with
  | Some v => Some v
  | None => header k l2
  end.
Proof.
  induction l1 as [ | [k0 v0] l1 IH]; simpl; [reflexivity | ].
  destruct (String.eqb k0 k); auto.
Qed.

Lemma header_spread (k : string) (extra : list (string * string)) :
  forall base,
    header k (spread base extra) =
    match header k (rev extra) with
    | Some v => Some v
    | None => header k base
    end.
Proof.
  unfold spread.
  induction extra as [ | [k0 v0] extra IH]; intros base; simpl.
  - reflexivity.
  - rewrite IH, header_app, header_assign_key. simpl.
    destruct (header k (rev extra)); [reflexivity | ].
    destruct (String.eqb k0 k); reflexivity.
Qed.

(** X11: the request [api] hands to [fetch] goes to the backend address
    followed by the path, with the caller's method and body unchanged; each
    header the caller gives is sent with the caller's value, and
    [Content-Type] is [application/json] unless the caller gives that header
    itself; no other header is sent. *)
Theorem api_request_merges_headers
    (path : string) (opts : Opts) (k : string) :
  url (request path opts) = BACKEND_URL ++ path /\
  method (init (request path opts)) = method opts /\
  body (init (request path opts)) = body opts /\
  exists hs,
    headers (init (request path opts)) = Some hs /\
    header k hs =
    match header k (rev (match headers opts with
                         | Some h => h
                         | None => []
                         end)) with
    | Some v => Some v
    | None =>
        if String.eqb "Content-Type" k then Some "application/json" else None
    end.
Proof.
  repeat split. eexists. split; [reflexivity | ].
  now rewrite header_spread.
Qed.

(** ** What the console never writes and never sends *)

Section Obeys.

Variable Pw : Write -> Prop.
Variable Pr : Request -> Prop.

Lemma obeys_bind {A C : Type} (p : Prog A) (f : A -> Prog C) :
  obeys Pw Pr p -> (forall a, obeys Pw Pr (f a)) -> obeys Pw Pr (bind p f).
Proof.
  intros Hp Hf.
  induction p as [a | e | r k IH | r1 r2 k IH | wr k IH]; simpl in *; auto.
  - destruct Hp as (Hr & Hk). auto.
  - destruct Hp as (Hr1 & Hr2 & Hk). auto.
  - destruct Hp as (Hw & Hk). auto.
Qed.

Lemma obeys_try_catch {A : Type} (p : Prog A) (h : Error -> Prog A) :
  obeys Pw Pr p -> (forall e, obeys Pw Pr (h e)) ->
  obeys Pw Pr (try_catch p h).
Proof.
  intros Hp Hh.
  induction p as [a | e | r k IH | r1 r2 k IH | wr k IH]; simpl in *; auto.
  - destruct Hp as (Hr & Hk). auto.
  - destruct Hp as (Hr1 & Hr2 & Hk). auto.
  - destruct Hp as (Hw & Hk). auto.
Qed.

Lemma obeys_api (path : string) (opts : Opts) :
  Pr (request path opts) -> obeys Pw Pr (api path opts).
Proof.
  intros Hr. unfold api. simpl. split; [assumption | ].
  intros o. settle o; exact I.
Qed.

Lemma obeys_advance (p : Prog unit) :
  forall s s' q,
    advance p s = (s', Some q) -> obeys Pw Pr p -> obeys Pw Pr q.
Proof.
  induction p as [a | e | r k IH | r1 r2 k IH | wr k IH]; simpl;
    intros s s' q Hadv Hp; try discriminate.
  - injection Hadv as _ <-. exact Hp.
  - injection Hadv as _ <-. exact Hp.
  - destruct Hp as (_ & Hk). eapply IH; eassumption.
Qed.

Lemma obeys_pending (p : Prog unit) :
  obeys Pw Pr p -> Forall Pr (pending p).
Proof.
  destruct p as [a | e | r k | r1 r2 k | wr k]; simpl; intros Hp;
    try constructor.
  - tauto.
  - constructor.
  - tauto.
  - constructor; [tauto | constructor].
Qed.

Lemma obeys_advance_store (Inv : Store -> Prop) (p : Prog unit) :
  (forall w s, Pw w -> Inv s -> Inv (apply_write w s)) ->
  forall s, obeys Pw Pr p -> Inv s -> Inv (fst (advance p s)).
Proof.
  intros Hpres.
  induction p as [a | e | r k IH | r1 r2 k IH | wr k IH]; simpl;
    intros s Hp Hs; auto.
  destruct Hp as (Hw & Hk). auto.
Qed.

End Obeys.

Lemma known_get (path : string) : In path read_paths -> known_request (get path).
Proof. intros Hin. left. now exists path. Qed.

Lemma known_post (path : string) (b : option BodyText) :
  In path action_paths -> known_request (request path (post b)).
Proof. intros Hin. right. now exists path, b. Qed.

Ltac known :=
  first [ apply known_get; simpl; tauto | apply known_post; simpl; tauto ].

Lemma tame_refreshAll : tame refreshAll.
Proof.
  unfold tame, refreshAll, api; simpl.
  split; [exact I | ]. split; [known | ]. split; [known | ].
  intros o1 o2.
  settle o1; settle o2;
    repeat match goal with
           | |- context [truthy ?v] => destruct (truthy v) eqn:?; simpl
           end;
    tauto.
Qed.

Lemma tame_loadAgentMeta : tame loadAgentMeta.
Proof.
  unfold tame, loadAgentMeta, api; simpl.
  split; [known | ]. split; [known | ].
  intros o1 o2.
  settle o1; settle o2;
    repeat match goal with
           | |- context [truthy ?v] => destruct (truthy v) eqn:?; simpl
           end;
    tauto.
Qed.

Lemma tame_loadAgentStatus : tame loadAgentStatus.
Proof.
  unfold tame, loadAgentStatus, api; simpl.
  split; [known | ]. intros o. settle o; tauto.
Qed.

Lemma tame_pollGmail : tame pollGmail.
Proof.
  unfold tame, pollGmail, api; simpl.
  split; [known | ]. intros o.
  settle o; try (simpl; tauto).
  match goal with
  | |- context [get_prop ?v _] => destruct (get_prop v "items") as [e | i]
  end; simpl; [tauto | ].
  split; [ | exact I].
  unfold or_else. destruct (truthy i) eqn:Hi; [exact Hi | reflexivity].
Qed.

Lemma tame_action_refresh : tame (refreshAll ;; pollGmail ;; loadAgentStatus).
Proof.
  apply obeys_bind; [apply tame_refreshAll | intros _].
  apply obeys_bind; [apply tame_pollGmail | intros _].
  apply tame_loadAgentStatus.
Qed.

Lemma tame_call (w : Write) : keeps_shape w -> tame (call w).
Proof. intros Hw. unfold tame, call. simpl. tauto. Qed.

Lemma tame_handleSeed : tame handleSeed.
Proof.
  unfold handleSeed.
  apply obeys_bind; [now apply tame_call | intros _].
  apply obeys_try_catch; [ | intros e; now apply tame_call].
  apply obeys_bind; [apply obeys_api; known | intros _].
  apply obeys_bind; [now apply tame_call | intros _].
  apply obeys_bind; [now apply tame_call | intros _].
  apply obeys_bind; [apply tame_refreshAll | intros _].
  apply tame_loadAgentStatus.
Qed.

Lemma tame_handleIngest (form : IngestDraft) : tame (handleIngest form).
Proof.
  unfold handleIngest.
  apply obeys_bind; [now apply tame_call | intros _].
  apply obeys_try_catch; [ | intros e; now apply tame_call].
  apply obeys_bind; [apply obeys_api; known | intros _].
  apply obeys_bind; [now apply tame_call | intros _].
  apply tame_action_refresh.
Qed.

Lemma tame_runOnce (showMsg : bool) : tame (runOnce showMsg).
Proof.
  unfold runOnce.
  apply obeys_bind;
    [destruct showMsg; [now apply tame_call | exact I] | intros _].
  apply obeys_try_catch; [ | intros e; now apply tame_call].
  apply obeys_bind; [apply obeys_api; known | intros res].
  apply obeys_bind;
    [destruct (get_prop res "processed"); exact I | intros p].
  apply obeys_bind; [destruct (truthy p); now apply tame_call | intros _].
  apply tame_action_refresh.
Qed.

Lemma tame_runLoop (steps : Z) : tame (runLoop steps).
Proof.
  unfold runLoop.
  apply obeys_bind; [now apply tame_call | intros _].
  apply obeys_try_catch; [ | intros e; now apply tame_call].
  apply obeys_bind; [apply obeys_api; known | intros res].
  apply obeys_bind;
    [destruct (get_prop res "processed"); exact I | intros p].
  apply obeys_bind; [now apply tame_call | intros _].
  apply tame_action_refresh.
Qed.

Lemma tame_tick : tame tick.
Proof.
  unfold tick.
  apply obeys_bind; [apply tame_runOnce | intros _].
  apply obeys_bind; [apply tame_pollGmail | intros _].
  apply obeys_bind; [apply tame_refreshAll | intros _].
  apply tame_loadAgentStatus.
Qed.

Lemma tame_handler (a : Action) : tame (handler a).
Proof.
  destruct a; simpl handler.
  - apply tame_runOnce.
  - apply tame_runLoop.
  - apply tame_pollGmail.
  - apply tame_handleSeed.
  - apply tame_handleIngest.
  - apply tame_runOnce.
  - apply tame_refreshAll.
Qed.

Section PageInvariant.

Variable Inv : Store -> Prop.
Hypothesis Inv_kept : shape_invariant Inv.

Lemma continue_page_inv (o : Origin) (done : list Request) (p : Prog unit)
    (others : list Task) (pg : Page) :
  tame p ->
  Forall (fun t => tame (code t)) others ->
  Forall known_request (sent pg) ->
  Inv (view pg) ->
  page_inv Inv (continue o done p others pg).
Proof.
  intros Hp Hothers Hsent Hview.
  pose proof (obeys_advance_store keeps_shape known_request Inv p Inv_kept
                (view pg) Hp Hview) as Hafter.
  unfold page_inv, page_tame, continue. simpl.
  destruct (advance p (view pg)) as [s' [q | ]] eqn:Hadv; simpl in *.
  - pose proof (obeys_advance keeps_shape known_request _ _ _ _ Hadv Hp) as Hq.
    split; [ | split].
    + apply Forall_app. split; [assumption | ]. now repeat constructor.
    + apply Forall_app. split; [assumption | ]. now apply (obeys_pending keeps_shape).
    + destruct (mounted pg); assumption.
  - split; [assumption | split; [assumption | ]].
    destruct (mounted pg); assumption.
Qed.

Lemma setAutoRun_frame (b : bool) (pg : Page) :
  view (setAutoRun b pg) = view pg /\
  inflight (setAutoRun b pg) = inflight pg /\
  sent (setAutoRun b pg) = sent pg.
Proof.
  unfold setAutoRun. destruct (Bool.eqb b (autoRun pg)); [auto | ].
  unfold autoRun_effect, autoRun_cleanup, clear_current; simpl.
  destruct b; simpl; destruct (intervalRef pg); auto.
Qed.

Lemma step_page_inv (pg q : Page) (ev : Event) :
  page_inv Inv pg -> step pg ev = Some q -> page_inv Inv q.
Proof.
  intros (Htame & Hsent & Hview).
  destruct ev as [ | | a | id | i os | ]; simpl.
  - destruct (mounted pg); [ | discriminate]. intros [= <-].
    destruct (setAutoRun_frame true pg) as (Ev & Ei & Es).
    unfold page_inv, page_tame. now rewrite Ev, Ei, Es.
  - destruct (mounted pg); [ | discriminate]. intros [= <-].
    destruct (setAutoRun_frame false pg) as (Ev & Ei & Es).
    unfold page_inv, page_tame. now rewrite Ev, Ei, Es.
  - destruct (mounted pg); [ | discriminate]. intros [= <-].
    apply continue_page_inv; auto using tame_handler.
  - destruct (existsb (Pos.eqb id) (timers pg)); [ | discriminate].
    intros [= <-]. apply continue_page_inv; auto using tame_tick.
  - destruct (nth_error (inflight pg) i) as [t | ] eqn:Hnth; [ | discriminate].
    destruct (resume t os) as [[rs p] | ] eqn:Hres; [ | discriminate].
    intros [= <-].
    apply continue_page_inv; auto using Forall_remove_nth.
    pose proof (proj1 (Forall_forall _ _) Htame t (nth_error_In _ _ Hnth))
      as Ht.
    unfold resume in Hres. unfold tame in *.
    destruct (code t) as [a | e | r k | r1 r2 k | wr k]; try discriminate.
    + destruct os as [ | o [ | ? ?]]; try discriminate.
      injection Hres as <- <-. apply Ht.
    + destruct os as [ | o1 [ | o2 [ | ? ?]]]; try discriminate.
      injection Hres as <- <-. apply Ht.
  - destruct (mounted pg); [ | discriminate]. intros [= <-].
    unfold page_inv, page_tame, autoRun_cleanup, clear_current; simpl.
    destruct (intervalRef pg); auto.
Qed.

Lemma exec_page_inv (evs : list Event) :
  forall pg q, page_inv Inv pg -> exec pg evs = Some q -> page_inv Inv q.
Proof.
  induction evs as [ | ev evs IH]; simpl; intros pg q Hinv.
  - now intros [= <-].
  - destruct (step pg ev) as [pg1 | ] eqn:Hstep; [ | discriminate].
    apply IH. eapply step_page_inv; eassumption.
Qed.

Lemma mount_page_inv : Inv initial_store -> page_inv Inv mount.
Proof.
  intros Hinit. unfold mount.
  assert (H0 : page_inv Inv
                 (mkPage initial_store false None [] 1%positive true [] []))
    by (repeat split; simpl; auto; constructor).
  assert (H1 : page_inv Inv
                 (launch FromMount refreshAll
                    (mkPage initial_store false None [] 1%positive true [] [])))
    by (destruct H0 as (? & ? & ?);
        apply continue_page_inv; auto using tame_refreshAll).
  assert (H2 : page_inv Inv
                 (launch FromMount loadAgentMeta
                    (launch FromMount refreshAll
                       (mkPage initial_store false None [] 1%positive true
                          [] []))))
    by (destruct H1 as (? & ? & ?);
        apply continue_page_inv; auto using tame_loadAgentMeta).
  assert (H3 : page_inv Inv
                 (launch FromMount pollGmail
                    (launch FromMount loadAgentMeta
                       (launch FromMount refreshAll
                          (mkPage initial_store false None [] 1%positive true
                             [] [])))))
    by (destruct H2 as (? & ? & ?);
        apply continue_page_inv; auto using tame_pollGmail).
  revert H3. generalize (launch FromMount pollGmail
                    (launch FromMount loadAgentMeta
                       (launch FromMount refreshAll
                          (mkPage initial_store false None [] 1%positive true
                             [] [])))).
  intros pg (Ht & Hs & Hv).
  unfold page_inv, page_tame, autoRun_effect, clear_current.
  destruct (autoRun pg); simpl; destruct (intervalRef pg); simpl; auto.
Qed.

End PageInvariant.

Lemma any_state_shape_invariant : shape_invariant (fun _ => True).
Proof. intros w s _ _. exact I. Qed.

Lemma reachable_page_inv (evs : list Event) (pg : Page) :
  exec mount evs = Some pg -> page_inv (fun _ => True) pg.
Proof.
  intros Hexec.
  eapply exec_page_inv;
    [apply any_state_shape_invariant | | eassumption].
  apply mount_page_inv; [apply any_state_shape_invariant | exact I].
Qed.

(** X12: whatever the operator clicks and whatever the backend answers,
    every request the console sends is either a bodiless GET of one of the
    five read endpoints or a POST to one of the four action endpoints, both
    with the JSON content type as only header. *)
Theorem console_sends_known_requests_only (evs : list Event) (pg : Page) :
  exec mount evs = Some pg ->
  Forall known_request (sent pg).
Proof.
  intros Hexec. now destruct (reachable_page_inv evs pg Hexec) as (_ & Hs & _).
Qed.

(** X13: in every state the console reaches, the stored queue and the
    stored log list are truthy: never [null], [undefined] or another falsy
    value, so the [length] the view reads off them is never read off
    [null]. *)
Theorem queue_and_logs_stay_truthy (evs : list Event) (pg : Page) :
  exec mount evs = Some pg ->
  truthy (gmailQueue (view pg)) = true /\ truthy (logs (view pg)) = true.
Proof.
  intros Hexec.
  assert (Hkept : shape_invariant
                    (fun s => truthy (gmailQueue s) = true /\
                              truthy (logs s) = true))
    by (intros w s Hw (Hq & Hl); destruct w; simpl in *; auto).
  assert (Hinv : page_inv
                   (fun s => truthy (gmailQueue s) = true /\
                             truthy (logs s) = true) pg).
  { eapply exec_page_inv; [exact Hkept | | eassumption].
    apply mount_page_inv; [exact Hkept | simpl; auto]. }
  now destruct Hinv as (_ & _ & Hv).
Qed.

(** X14: what the console has once shown it never takes back: from any
    reachable state on, a set seeded mark stays set, and a loaded analytics
    summary and a loaded agent configuration stay truthy, whatever follows
    (failed refreshes included). *)
Theorem loaded_state_is_never_cleared
    (evs later : list Event) (pg q : Page) :
  exec mount evs = Some pg ->
  exec pg later = Some q ->
  (seeded (view pg) = true -> seeded (view q) = true) /\
  (truthy (analytics (view pg)) = true ->
   truthy (analytics (view q)) = true) /\
  (truthy (agentConfig (view pg)) = true ->
   truthy (agentConfig (view q)) = true).
Proof.
  intros Hexec Hlater.
  destruct (reachable_page_inv evs pg Hexec) as (Ht & Hs & _).
  split; [ | split]; intros Hnow.
  - assert (Hkept : shape_invariant (fun s => seeded s = true))
      by (intros w s Hw Hv; destruct w; simpl in *; auto).
    assert (Hinv : page_inv (fun s => seeded s = true) q)
      by (eapply exec_page_inv; [exact Hkept | | eassumption];
          repeat split; assumption).
    now destruct Hinv as (_ & _ & Hv).
  - assert (Hkept : shape_invariant (fun s => truthy (analytics s) = true))
      by (intros w s Hw Hv; destruct w; simpl in *; auto).
    assert (Hinv : page_inv (fun s => truthy (analytics s) = true) q)
      by (eapply exec_page_inv; [exact Hkept | | eassumption];
          repeat split; assumption).
    now destruct Hinv as (_ & _ & Hv).
  - assert (Hkept : shape_invariant (fun s => truthy (agentConfig s) = true))
      by (intros w s Hw Hv; destruct w; simpl in *; auto).
    assert (Hinv : page_inv (fun s => truthy (agentConfig s) = true) q)
      by (eapply exec_page_inv; [exact Hkept | | eassumption];
          repeat split; assumption).
    now destruct Hinv as (_ & _ & Hv).
Qed.

(** ** The automatic cycle, further *)

(** X15: the Start/Stop button the console shows always takes effect: in
    every reachable state of the mounted console, clicking it flips
    auto-run, and afterwards exactly one timer is active if auto-run is on
    and none if it is off. *)
Theorem auto_button_always_toggles (evs : list Event) (pg : Page) :
  exec mount evs = Some pg ->
  mounted pg = true ->
  exists pg',
    step pg (auto_button pg) = Some pg' /\
    autoRun pg' = negb (autoRun pg) /\
    length (timers pg') = (if autoRun pg' then 1 else 0)%nat.
Proof.
  intros Hexec Hm.
  assert (Hinv : timer_inv pg)
    by (eapply exec_timer_inv; [apply mount_timer_inv | eassumption]).
  exists (setAutoRun (negb (autoRun pg)) pg).
  pose proof (setAutoRun_timer_inv (negb (autoRun pg)) pg Hm Hinv) as Hinv'.
  pose proof (setAutoRun_autoRun (negb (autoRun pg)) pg) as Hflip.
  pose proof (setAutoRun_mounted (negb (autoRun pg)) pg) as Hm'.
  split; [ | split; [exact Hflip | ]].
  - unfold auto_button. destruct (autoRun pg); simpl; now rewrite Hm.
  - unfold timer_inv in Hinv'. rewrite Hm', Hm, Hflip in Hinv'.
    rewrite Hflip.
    destruct (intervalRef (setAutoRun (negb (autoRun pg)) pg)) as [id | ].
    + destruct Hinv' as (Hon & Ht & _). rewrite Ht, Hon. reflexivity.
    + destruct Hinv' as (Hoff & Ht). rewrite Ht, Hoff. reflexivity.
Qed.

Lemma step_after_unmount (pg q : Page) (ev : Event) :
  mounted pg = false -> timers pg = [] -> step pg ev = Some q ->
  mounted q = false /\ timers q = [] /\ forall id, ev <> Fire id.
Proof.
  intros Hm Ht. destruct ev as [ | | a | id | i os | ]; simpl;
    rewrite ?Hm, ?Ht; simpl; try discriminate.
  destruct (nth_error (inflight pg) i) as [t | ]; [ | discriminate].
  destruct (resume t os) as [[rs p] | ]; [ | discriminate].
  intros [= <-]. simpl. repeat split; try assumption. discriminate.
Qed.

Lemma no_fire_after_unmount (later : list Event) :
  forall pg q,
    mounted pg = false -> timers pg = [] -> exec pg later = Some q ->
    forall id, ~ In (Fire id) later.
Proof.
  induction later as [ | ev later IH]; simpl; intros pg q Hm Ht Hexec id;
    [tauto | ].
  destruct (step pg ev) as [pg1 | ] eqn:Hstep; [ | discriminate].
  destruct (step_after_unmount pg pg1 ev Hm Ht Hstep) as (Hm1 & Ht1 & Hev).
  intros [Hfire | Hin].
  - exact (Hev id Hfire).
  - exact (IH pg1 q Hm1 Ht1 Hexec id Hin).
Qed.

(** X16: closing the console cancels the automatic cycle for good: after
    the unmount no timer is active, and no tick occurs in any continuation,
    also when auto-run was on. *)
Theorem unmount_cancels_timer (evs : list Event) (pg pg' : Page) :
  exec mount evs = Some pg ->
  step pg Unmount = Some pg' ->
  timers pg' = [] /\
  forall later q,
    exec pg' later = Some q -> forall id, ~ In (Fire id) later.
Proof.
  intros Hexec Hstep.
  assert (Hinv : timer_inv pg)
    by (eapply exec_timer_inv; [apply mount_timer_inv | eassumption]).
  pose proof (step_timer_inv _ _ _ Hinv Hstep) as Hinv'.
  assert (Hm' : mounted pg' = false).
  { simpl in Hstep. destruct (mounted pg); [ | discriminate].
    now injection Hstep as <-. }
  assert (Ht' : timers pg' = []).
  { unfold timer_inv in Hinv'. rewrite Hm' in Hinv'.
    destruct (intervalRef pg'); [now destruct Hinv' as (_ & Ht & _) | ].
    now destruct Hinv'. }
  split; [exact Ht' | ].
  intros later q Hlater. eapply no_fire_after_unmount; eassumption.
Qed.

Lemma launch_tick (pg : Page) :
  exists k,
    launch FromTick tick pg =
    mkPage (view pg) (autoRun pg) (intervalRef pg) (timers pg)
      (next_timer pg) (mounted pg)
      (inflight pg
         ++ [mkTask FromTick []
               (Fetch (request "/agent/run-once" (post None)) k)])
      (sent pg ++ [request "/agent/run-once" (post None)]).
Proof.
  eexists. unfold launch, continue. simpl.
  destruct (mounted pg); reflexivity.
Qed.

(** X17: nothing keeps ticks from overlapping: while a timer is active it
    can fire any number of times in a row without any response in between,
    and each time one more tick is in flight and one more run-once POST has
    left. *)
Theorem ticks_overlap_without_bound (pg : Page) (id : TimerId) (n : nat) :
  In id (timers pg) ->
  exists q,
    exec pg (repeat (Fire id) n) = Some q /\
    length (inflight q) = (length (inflight pg) + n)%nat /\
    sent q =
    (sent pg ++ repeat (request "/agent/run-once" (post None)) n)%list.
Proof.
  revert pg. induction n as [ | n IH]; intros pg Hin; simpl.
  - exists pg. now rewrite Nat.add_0_r, app_nil_r.
  - assert (Hon : existsb (Pos.eqb id) (timers pg) = true)
      by (apply existsb_exists; exists id; split;
          [assumption | apply Pos.eqb_refl]).
    rewrite Hon.
    destruct (launch_tick pg) as (k & Hl). rewrite Hl.
    match goal with
    | |- context [exec ?P _] => destruct (IH P Hin) as (q & Hq & Hlen & Hsent)
    end.
    exists q. split; [exact Hq | ]. simpl in Hlen, Hsent.
    rewrite Hlen, Hsent, length_app. simpl.
    split; [lia | now rewrite <- app_assoc].
Qed.

(** ** The loading flag *)

Lemma loading_post_mono {A : Type} (Q Q' : Completion A -> bool -> Prop)
    (p : Prog A) :
  (forall c b, Q c b -> Q' c b) ->
  forall owed, loading_post owed p Q -> loading_post owed p Q'.
Proof.
  intros Himp.
  induction p as [a | e | r k IH | r1 r2 k IH | wr k IH]; simpl; intros owed;
    auto.
  destruct wr; auto.
Qed.

Lemma loading_post_bind {A C : Type} (Q : Completion C -> bool -> Prop)
    (p : Prog A) (f : A -> Prog C) :
  forall owed,
    loading_post owed p
      (fun c b =>
         match c with
         | Normal a => loading_post b (f a) Q
         | Thrown e => Q (Thrown e) b
         end) ->
    loading_post owed (bind p f) Q.
Proof.
  induction p as [a | e | r k IH | r1 r2 k IH | wr k IH]; simpl; intros owed;
    auto.
  destruct wr; auto.
Qed.

Lemma loading_post_try_catch {A : Type} (Q : Completion A -> bool -> Prop)
    (p : Prog A) (h : Error -> Prog A) :
  forall owed,
    loading_post owed p
      (fun c b =>
         match c with
         | Normal a => Q (Normal a) b
         | Thrown e => loading_post b (h e) Q
         end) ->
    loading_post owed (try_catch p h) Q.
Proof.
  induction p as [a | e | r k IH | r1 r2 k IH | wr k IH]; simpl; intros owed;
    auto.
  destruct wr; auto.
Qed.

Lemma settles_bind {A C : Type} (p : Prog A) (f : A -> Prog C) :
  settles_loading false p -> (forall a, settles_loading false (f a)) ->
  settles_loading false (bind p f).
Proof.
  unfold settles_loading. intros Hp Hf. apply loading_post_bind.
  eapply loading_post_mono; [ | exact Hp].
  intros c b ->. destruct c; [apply Hf | reflexivity].
Qed.

Lemma settles_try_catch {A : Type} (p : Prog A) (h : Error -> Prog A) :
  settles_loading false p -> (forall e, settles_loading false (h e)) ->
  settles_loading false (try_catch p h).
Proof.
  unfold settles_loading. intros Hp Hh. apply loading_post_try_catch.
  eapply loading_post_mono; [ | exact Hp].
  intros c b ->. destruct c; [reflexivity | apply Hh].
Qed.

Lemma settles_api (path : string) (opts : Opts) :
  settles_loading false (api path opts).
Proof.
  unfold settles_loading, api. simpl. intros o. settle o; reflexivity.
Qed.

(** [refreshAll] clears the flag whatever it was when it started. *)
Lemma settles_refreshAll (owed : bool) : settles_loading owed refreshAll.
Proof.
  unfold settles_loading, refreshAll, api; simpl. intros o1 o2.
  settle o1; settle o2;
    repeat match goal with
           | |- context [truthy ?v] => destruct (truthy v); simpl
           end;
    reflexivity.
Qed.

Lemma settles_loadAgentMeta : settles_loading false loadAgentMeta.
Proof.
  unfold settles_loading, loadAgentMeta, api; simpl. intros o1 o2.
  settle o1; settle o2;
    repeat match goal with
           | |- context [truthy ?v] => destruct (truthy v); simpl
           end;
    reflexivity.
Qed.

Lemma settles_loadAgentStatus : settles_loading false loadAgentStatus.
Proof.
  unfold settles_loading, loadAgentStatus, api; simpl. intros o.
  settle o; reflexivity.
Qed.

Lemma settles_pollGmail : settles_loading false pollGmail.
Proof.
  unfold settles_loading, pollGmail, api; simpl. intros o.
  settle o; try reflexivity.
  match goal with
  | |- context [get_prop ?v _] => destruct (get_prop v "items"); simpl
  end; reflexivity.
Qed.

Lemma settles_action_refresh :
  settles_loading false (refreshAll ;; pollGmail ;; loadAgentStatus).
Proof.
  apply settles_bind; [apply settles_refreshAll | intros _].
  apply settles_bind; [apply settles_pollGmail | intros _].
  apply settles_loadAgentStatus.
Qed.

Lemma settles_handleSeed : settles_loading false handleSeed.
Proof.
  unfold handleSeed.
  apply settles_bind; [reflexivity | intros _].
  apply settles_try_catch; [ | intros e; reflexivity].
  apply settles_bind; [apply settles_api | intros _].
  apply settles_bind; [reflexivity | intros _].
  apply settles_bind; [reflexivity | intros _].
  apply settles_bind; [apply settles_refreshAll | intros _].
  apply settles_loadAgentStatus.
Qed.

Lemma settles_handleIngest (form : IngestDraft) :
  settles_loading false (handleIngest form).
Proof.
  unfold handleIngest.
  apply settles_bind; [reflexivity | intros _].
  apply settles_try_catch; [ | intros e; reflexivity].
  apply settles_bind; [apply settles_api | intros _].
  apply settles_bind; [reflexivity | intros _].
  apply settles_action_refresh.
Qed.

Lemma settles_runOnce (showMsg : bool) :
  settles_loading false (runOnce showMsg).
Proof.
  unfold runOnce.
  apply settles_bind; [destruct showMsg; reflexivity | intros _].
  apply settles_try_catch; [ | intros e; reflexivity].
  apply settles_bind; [apply settles_api | intros res].
  apply settles_bind;
    [destruct (get_prop res "processed"); reflexivity | intros p].
  apply settles_bind; [destruct (truthy p); reflexivity | intros _].
  apply settles_action_refresh.
Qed.

Lemma settles_runLoop (steps : Z) : settles_loading false (runLoop steps).
Proof.
  unfold runLoop.
  apply settles_bind; [reflexivity | intros _].
  apply settles_try_catch; [ | intros e; reflexivity].
  apply settles_bind; [apply settles_api | intros res].
  apply settles_bind;
    [destruct (get_prop res "processed"); reflexivity | intros p].
  apply settles_bind; [reflexivity | intros _].
  apply settles_action_refresh.
Qed.

Lemma settles_tick : settles_loading false tick.
Proof.
  unfold tick.
  apply settles_bind; [apply settles_runOnce | intros _].
  apply settles_bind; [apply settles_pollGmail | intros _].
  apply settles_bind; [apply settles_refreshAll | intros _].
  apply settles_loadAgentStatus.
Qed.

Lemma settles_handler (a : Action) : settles_loading false (handler a).
Proof.
  destruct a; simpl handler.
  - apply settles_runOnce.
  - apply settles_runLoop.
  - apply settles_pollGmail.
  - apply settles_handleSeed.
  - apply settles_handleIngest.
  - apply settles_runOnce.
  - apply settles_refreshAll.
Qed.

(** What a function owes after running up to its next suspension. *)
Lemma advance_loading (p : Prog unit) :
  forall owed s,
    settles_loading owed p ->
    exists owed',
      match snd (advance p s) with
      | Some q => settles_loading owed' q
      | None => owed' = false
      end /\
      ((owed' = owed /\ loading (fst (advance p s)) = loading s) \/
       owed' = loading (fst (advance p s))).
Proof.
  unfold settles_loading.
  induction p as [a | e | r k IH | r1 r2 k IH | wr k IH]; simpl;
    intros owed s Hp.
  - exists owed. auto.
  - exists owed. auto.
  - exists owed. auto.
  - exists owed. auto.
  - destruct wr as [b | b | v | v | m | v | v | v];
      try (match goal with
           | |- context [advance k ?s'] =>
               destruct (IH owed s' Hp) as (owed' & Hq & Hl)
           end;
           exists owed'; split; [exact Hq | exact Hl]).
    destruct (IH b (apply_write (setLoading b) s) Hp)
      as (owed' & Hq & [(Ho & Hl) | Hl]);
      exists owed'; (split; [exact Hq | right]); [ | exact Hl].
    rewrite Hl, Ho. reflexivity.
Qed.

Lemma continue_loading_inv (o : Origin) (done : list Request)
    (p : Prog unit) (others : list Task) (pg : Page) (owed : bool)
    (owes : list bool) :
  settles_loading owed p ->
  Forall2 (fun t b => settles_loading b (code t)) others owes ->
  (mounted pg = true -> loading (view pg) = true -> In true (owed :: owes)) ->
  loading_inv (continue o done p others pg).
Proof.
  intros Hp Hothers Hflag.
  destruct (advance_loading p owed (view pg) Hp) as (owed' & Hq & Hl).
  unfold loading_inv, continue. simpl.
  destruct (advance p (view pg)) as [s' [q | ]]; simpl in *.
  - exists (owes ++ [owed'])%list. split.
    + apply Forall2_app; [assumption | ]. now repeat constructor.
    + intros Hm Hs'. rewrite Hm in Hs'. apply in_or_app.
      destruct Hl as [(Ho & Hl) | Hl].
      * rewrite Hl in Hs'. destruct (Hflag Hm Hs') as [Hin | Hin].
        -- right. left. congruence.
        -- now left.
      * right. left. congruence.
  - exists owes. split; [assumption | ].
    intros Hm Hs'. rewrite Hm in Hs'.
    destruct Hl as [(Ho & Hl) | Hl]; [ | congruence].
    rewrite Hl in Hs'. destruct (Hflag Hm Hs') as [Hin | Hin];
      [congruence | assumption].
Qed.

Lemma Forall2_nth_error {T U : Type} (R : T -> U -> Prop) (l : list T) :
  forall (l' : list U) i t,
    Forall2 R l l' -> nth_error l i = Some t ->
    exists u, nth_error l' i = Some u /\ R t u.
Proof.
  induction l as [ | x l IH]; intros l' i t Hall Hnth.
  - destruct i; discriminate.
  - inversion Hall as [ | x' y l0 l0' Hxy Hrest]; subst.
    destruct i as [ | i]; simpl in *.
    + injection Hnth as <-. now exists y.
    + now apply IH.
Qed.

Lemma Forall2_remove_nth {T U : Type} (R : T -> U -> Prop) (l : list T) :
  forall (l' : list U) i,
    Forall2 R l l' -> Forall2 R (remove_nth i l) (remove_nth i l').
Proof.
  induction l as [ | x l IH]; intros l' i Hall.
  - inversion Hall; subst. destruct i; constructor.
  - inversion Hall as [ | x' y l0 l0' Hxy Hrest]; subst.
    destruct i as [ | i]; simpl; [assumption | ].
    constructor; auto.
Qed.

Lemma In_remove_nth {T : Type} (l : list T) :
  forall i x y,
    nth_error l i = Some x -> In y l -> y = x \/ In y (remove_nth i l).
Proof.
  induction l as [ | z l IH]; intros i x y Hnth Hin; [destruct Hin | ].
  destruct i as [ | i]; simpl in *.
  - injection Hnth as <-. destruct Hin; auto.
  - destruct Hin as [-> | Hin]; [right; now left | ].
    destruct (IH i x y Hnth Hin); auto.
Qed.

Lemma step_loading_inv (pg q : Page) (ev : Event) :
  loading_inv pg -> step pg ev = Some q -> loading_inv q.
Proof.
  intros (owes & Hall & Hflag).
  destruct ev as [ | | a | id | i os | ]; simpl.
  - destruct (mounted pg) eqn:Hm; [ | discriminate]. intros [= <-].
    destruct (setAutoRun_frame true pg) as (Ev & Ei & _).
    exists owes. rewrite Ev, Ei, setAutoRun_mounted. auto.
  - destruct (mounted pg) eqn:Hm; [ | discriminate]. intros [= <-].
    destruct (setAutoRun_frame false pg) as (Ev & Ei & _).
    exists owes. rewrite Ev, Ei, setAutoRun_mounted. auto.
  - destruct (mounted pg); [ | discriminate]. intros [= <-].
    apply (continue_loading_inv _ _ _ _ _ false owes);
      [apply settles_handler | assumption | ].
    intros Hm Hs. right. auto.
  - destruct (existsb (Pos.eqb id) (timers pg)); [ | discriminate].
    intros [= <-].
    apply (continue_loading_inv _ _ _ _ _ false owes);
      [apply settles_tick | assumption | ].
    intros Hm Hs. right. auto.
  - destruct (nth_error (inflight pg) i) as [t | ] eqn:Hnth; [ | discriminate].
    destruct (resume t os) as [[rs p] | ] eqn:Hres; [ | discriminate].
    intros [= <-].
    destruct (Forall2_nth_error _ _ _ _ _ Hall Hnth) as (b & Hb & Ht).
    apply (continue_loading_inv _ _ _ _ _ b (remove_nth i owes)).
    + unfold resume in Hres. unfold settles_loading in *.
      destruct (code t) as [a | e | r k | r1 r2 k | wr k]; try discriminate.
      * destruct os as [ | o [ | ? ?]]; try discriminate.
        injection Hres as <- <-. apply Ht.
      * destruct os as [ | o1 [ | o2 [ | ? ?]]]; try discriminate.
        injection Hres as <- <-. apply Ht.
    + now apply Forall2_remove_nth.
    + intros Hm Hs.
      destruct (In_remove_nth owes i b true Hb (Hflag Hm Hs)); [left | right];
        auto.
  - destruct (mounted pg); [ | discriminate]. intros [= <-].
    exists owes. unfold autoRun_cleanup, clear_current; simpl.
    destruct (intervalRef pg); simpl; (split; [assumption | discriminate]).
Qed.

Lemma exec_loading_inv (evs : list Event) :
  forall pg q, loading_inv pg -> exec pg evs = Some q -> loading_inv q.
Proof.
  induction evs as [ | ev evs IH]; simpl; intros pg q Hinv.
  - now intros [= <-].
  - destruct (step pg ev) as [pg1 | ] eqn:Hstep; [ | discriminate].
    apply IH. eapply step_loading_inv; eassumption.
Qed.

Lemma launch_loading_inv (p : Prog unit) (pg : Page) :
  settles_loading false p -> loading_inv pg ->
  loading_inv (launch FromMount p pg).
Proof.
  intros Hp (owes & Hall & Hflag).
  apply (continue_loading_inv _ _ _ _ _ false owes); auto.
  intros Hm Hs. right. auto.
Qed.

Lemma mount_loading_inv : loading_inv mount.
Proof.
  unfold mount.
  assert (H : loading_inv
                (launch FromMount pollGmail
                   (launch FromMount loadAgentMeta
                      (launch FromMount refreshAll
                         (mkPage initial_store false None [] 1%positive true
                            [] []))))).
  { apply launch_loading_inv; [apply settles_pollGmail | ].
    apply launch_loading_inv; [apply settles_loadAgentMeta | ].
    apply launch_loading_inv; [apply settles_refreshAll | ].
    exists []. simpl. split; [constructor | discriminate]. }
  revert H. generalize (launch FromMount pollGmail
                   (launch FromMount loadAgentMeta
                      (launch FromMount refreshAll
                         (mkPage initial_store false None [] 1%positive true
                            [] [])))).
  intros pg (owes & Hall & Hflag). exists owes.
  unfold autoRun_effect, clear_current.
  destruct (autoRun pg); simpl; destruct (intervalRef pg); simpl; auto.
Qed.

(** X18: the loading indicator never sticks: in every state the mounted
    console reaches, the loading flag is off as soon as no function is in
    flight, whatever the outcomes of the requests were. *)
Theorem loading_clears_when_idle (evs : list Event) (pg : Page) :
  exec mount evs = Some pg ->
  mounted pg = true ->
  inflight pg = [] ->
  loading (view pg) = false.
Proof.
  intros Hexec Hm Hidle.
  destruct (exec_loading_inv evs mount pg mount_loading_inv Hexec)
    as (owes & Hall & Hflag).
  rewrite Hidle in Hall. inversion Hall; subst.
  destruct (loading (view pg)); [ | reflexivity].
  destruct (Hflag Hm eq_refl).
Qed.

(** ** No retries *)

Ltac count_requests :=
  eexists; split;
  [ first [ reflexivity
          | match goal with
            | H : trace _ = _ |- _ => rewrite H, <- app_assoc; reflexivity
            end ]
  | simpl; split; [lia | reflexivity] ].

Lemma runOnce_request_count (be : Backend) (w : World) (showMsg : bool) :
  exists news,
    trace (snd (run be (runOnce showMsg) w)) = (trace w ++ news)%list /\
    (length news <= 5)%nat /\
    length (filter is_post news) = 1%nat.
Proof.
  destruct (fst (run be (api "/agent/run-once" (post None)) w))
    as [res | e] eqn:H.
  - destruct (get_prop res "processed") as [e | p] eqn:Hp.
    + rewrite (run_runOnce_unreadable be w showMsg res e H Hp).
      count_requests.
    + destruct (run_runOnce_success be w showMsg res p H Hp)
        as (w' & -> & Ht & _).
      simpl. rewrite Ht. count_requests.
  - rewrite (run_runOnce_failure be w showMsg e H). count_requests.
Qed.

(** X19: no button retries or posts twice: whatever the backend answers, a
    click sends at most five requests, of which exactly one is a POST for
    the buttons that change the backend and none for the two refresh
    buttons; a timer tick sends at most nine requests, exactly one of them a
    POST. *)
Theorem one_post_per_click_and_tick (be : Backend) (w : World) :
  (forall a,
     exists news,
       trace (snd (run be (handler a) w)) = (trace w ++ news)%list /\
       (length news <= 5)%nat /\
       length (filter is_post news) = (if posts a then 1 else 0)%nat) /\
  (exists news,
     trace (snd (run be tick w)) = (trace w ++ news)%list /\
     (length news <= 9)%nat /\
     length (filter is_post news) = 1%nat).
Proof.
  split.
  - intros a. destruct a as [ | | | | form | | ]; simpl handler; simpl posts.
    + apply runOnce_request_count.
    + destruct (fst (run be (api "/agent/run-loop" (run_loop_opts 10)) w))
        as [res | e] eqn:H.
      * destruct (get_prop res "processed") as [e | p] eqn:Hp;
          unfold runLoop; fold (run_loop_opts 10); enter_action H.
        -- rewrite run_bind, Hp; cbn [lift run]; cbv beta iota.
           rewrite run_call. count_requests.
        -- read_prop Hp. run_setters. refresh_tail run_refresh_with_poll.
           count_requests.
      * unfold runLoop; fold (run_loop_opts 10); enter_action H.
        count_requests.
    + destruct (run_pollGmail be w) as (s & -> & _). count_requests.
    + destruct (fst (run be (api "/seed/vendors" seed_opts) w))
        as [v | e] eqn:H; unfold handleSeed; fold seed_opts; enter_action H.
      * run_setters. refresh_tail run_refresh_without_poll. count_requests.
      * count_requests.
    + destruct (fst (run be (api "/ingest/mock-email" (ingest_opts form)) w))
        as [v | e] eqn:H; unfold handleIngest; fold (ingest_opts form);
        enter_action H.
      * run_setters. refresh_tail run_refresh_with_poll. count_requests.
      * count_requests.
    + apply runOnce_request_count.
    + destruct (run_refreshAll be w) as (s & -> & _). count_requests.
  - unfold tick. rewrite run_bind.
    destruct (runOnce_request_count be w false) as (n1 & Ht1 & Hlen & Hpost).
    destruct (run be (runOnce false) w) as [c w1] eqn:Hrun.
    assert (Hc : c = Normal tt).
    { destruct (fst (run be (api "/agent/run-once" (post None)) w))
        as [res | e] eqn:H.
      - destruct (get_prop res "processed") as [e | p] eqn:Hp.
        + rewrite (run_runOnce_unreadable be w false res e H Hp) in Hrun.
          congruence.
        + destruct (run_runOnce_success be w false res p H Hp)
            as (w' & Hr & _). congruence.
      - rewrite (run_runOnce_failure be w false e H) in Hrun. congruence. }
    subst c. simpl in Ht1.
    destruct (run_tick_refresh be w1) as (w' & -> & Ht & _).
    exists (n1 ++ [get "/gmail/poll"; get "/analytics/summary"; get "/logs";
                   get "/agent/status"])%list.
    simpl. rewrite Ht, Ht1, <- app_assoc.
    split; [reflexivity | ].
    rewrite length_app, filter_app, length_app, Hpost. simpl.
    split; [lia | reflexivity].
Qed.

End App.

(** ** The properties at sample inputs *)

(** A 503 from a backend that is down. *)
Lemma api_fails_outside_success_range_witness :
  be_down (trace fresh_world) (request localhost "/logs" no_opts) =
  Resolved (mkResponse 503 "Service Unavailable" not_json) /\
  fst (run be_down (api localhost "/logs" no_opts) fresh_world) =
  Thrown (new_Error "503 Service Unavailable").
Proof.
  split; [reflexivity | ].
  apply (proj1 (api_fails_outside_success_range localhost be_down "/logs"
                  no_opts fresh_world _ eq_refl)).
  simpl. lia.
Defined.

(** A failed poll empties a queue that showed one message. *)
Lemma pollGmail_contains_failure_witness :
  fst (run be_down (api localhost "/gmail/poll" no_opts) world_with_queue) =
  Thrown (new_Error "503 Service Unavailable") /\
  gmailQueue (store (snd (run be_down (pollGmail localhost) world_with_queue)))
  = JArr [].
Proof.
  split; [reflexivity | ].
  apply (proj1 (proj2 (pollGmail_contains_failure localhost be_down
                         world_with_queue))
           (new_Error "503 Service Unavailable")).
  reflexivity.
Defined.

(** A successful poll replaces the queue by the items received. *)
Lemma pollGmail_stores_items_witness :
  fst (run (be_busy localhost) (api localhost "/gmail/poll" no_opts)
         world_with_queue) =
  Normal (JObj [("items", JArr [JObj [("messageId", JStr "m-1")]])]) /\
  gmailQueue
    (store (snd (run (be_busy localhost) (pollGmail localhost)
                   world_with_queue))) =
  JArr [JObj [("messageId", JStr "m-1")]].
Proof.
  split; [reflexivity | ].
  apply (proj2 (proj2 (pollGmail_stores_items localhost (be_busy localhost)
                         world_with_queue _ eq_refl))
           [("items", JArr [JObj [("messageId", JStr "m-1")]])]
           [JObj [("messageId", JStr "m-1")]]);
    reflexivity.
Defined.

(** C2, as stated, fails: with one log entry on display and a [/logs]
    endpoint that answers 500, a refresh empties the stored log list
    instead of leaving it unchanged. *)
Lemma refreshAll_clears_logs_on_failure :
  fst (run (be_logs_down localhost) (api localhost "/logs" no_opts)
         (mkWorld (store world_with_log)
            [get localhost "/analytics/summary"])) =
  Thrown (new_Error "500 Internal Server Error") /\
  logs (store world_with_log) = JArr [sample_log] /\
  logs (store (snd (run (be_logs_down localhost) (refreshAll localhost)
                      world_with_log))) = JArr [] /\
  logs (store (snd (run (be_logs_down localhost) (refreshAll localhost)
                      world_with_log))) <> logs (store world_with_log).
Proof.
  repeat split; try reflexivity. discriminate.
Qed.

(** With [/logs] failing, the summary is still stored. *)
Lemma refreshAll_independent_failures_witness :
  fst (run (be_logs_down localhost) (api localhost "/logs" no_opts)
         (mkWorld (store world_with_log)
            [get localhost "/analytics/summary"])) =
  Thrown (new_Error "500 Internal Server Error") /\
  fst (run (be_logs_down localhost)
         (api localhost "/analytics/summary" no_opts) world_with_log) =
  Normal (JObj [("total", JNum 1)]) /\
  logs (store (snd (run (be_logs_down localhost) (refreshAll localhost)
                      world_with_log))) = JArr [] /\
  analytics (store (snd (run (be_logs_down localhost) (refreshAll localhost)
                           world_with_log))) = JObj [("total", JNum 1)].
Proof.
  split; [reflexivity | split; [reflexivity | split]].
  - apply (proj1 (proj2 (refreshAll_independent_failures localhost
                           (be_logs_down localhost) world_with_log))
             (new_Error "500 Internal Server Error")).
    reflexivity.
  - apply (proj1 (proj2 (proj2 (refreshAll_independent_failures localhost
                                  (be_logs_down localhost) world_with_log))));
      reflexivity.
Defined.

(** C1, as stated, fails: when the backend is down, process-next reports
    the failure and sends nothing after its own request; none of the refresh
    requests leaves. *)
Lemma failed_process_next_skips_refresh :
  fst (run be_down (api localhost "/agent/run-once" (post None)) fresh_world)
  = Thrown (new_Error "503 Service Unavailable") /\
  statusMsg (store (snd (run be_down (handleProcess localhost) fresh_world)))
  = "Process failed: 503 Service Unavailable" /\
  trace (snd (run be_down (handleProcess localhost) fresh_world)) =
  [request localhost "/agent/run-once" (post None)] /\
  ~ In (get localhost "/gmail/poll")
      (trace (snd (run be_down (handleProcess localhost) fresh_world))) /\
  ~ In (get localhost "/agent/status")
      (trace (snd (run be_down (handleProcess localhost) fresh_world))).
Proof.
  repeat split; try reflexivity;
    intros [H | []]; discriminate H.
Qed.

(** Process-next against a backend that is down. *)
Lemma failed_action_reports_without_refresh_witness :
  fst (run be_down (api localhost "/agent/run-once" (post None)) fresh_world)
  = Thrown (new_Error "503 Service Unavailable") /\
  run be_down (runOnce localhost true) fresh_world =
  (Normal tt,
   mkWorld
     (apply_write (setStatusMsg "Process failed: 503 Service Unavailable")
        initial_store)
     [request localhost "/agent/run-once" (post None)]).
Proof.
  split; [reflexivity | ].
  apply (proj1 (proj2 (proj2 (failed_action_reports_without_refresh localhost
                                be_down fresh_world
                                (new_Error "503 Service Unavailable"))))
           true).
  reflexivity.
Defined.

(** C3, as stated, fails: a successful seed refreshes analytics, logs and
    status, and never polls the queue. *)
Lemma seed_skips_queue_poll :
  fst (run (be_idle localhost) (api localhost "/seed/vendors" seed_opts)
         fresh_world) = Normal (JObj [("total", JNum 1)]) /\
  trace (snd (run (be_idle localhost) (handleSeed localhost) fresh_world)) =
  [request localhost "/seed/vendors" seed_opts;
   get localhost "/analytics/summary"; get localhost "/logs";
   get localhost "/agent/status"] /\
  ~ In (get localhost "/gmail/poll")
      (trace (snd (run (be_idle localhost) (handleSeed localhost)
                     fresh_world))).
Proof.
  repeat split; try reflexivity.
  intros [H | [H | [H | [H | []]]]]; discriminate H.
Qed.

(** Process-next against a healthy backend with nothing pending. *)
Lemma successful_action_refresh_order_witness :
  fst (run (be_idle localhost) (api localhost "/agent/run-once" (post None))
         fresh_world) = Normal (JObj [("processed", JBool false)]) /\
  get_prop (JObj [("processed", JBool false)]) "processed" =
  inr (JBool false) /\
  trace (snd (run (be_idle localhost) (runOnce localhost true) fresh_world)) =
  [request localhost "/agent/run-once" (post None);
   get localhost "/analytics/summary"; get localhost "/logs";
   get localhost "/gmail/poll"; get localhost "/agent/status"].
Proof.
  split; [reflexivity | split; [reflexivity | ]].
  apply (proj1 (proj2 (proj2 (successful_action_refresh_order localhost
                                (be_idle localhost) fresh_world)))
           true (JObj [("processed", JBool false)]) (JBool false));
    reflexivity.
Defined.

(** Nothing pending: the status line says so. *)
Lemma runOnce_status_phrases_witness :
  fst (run (be_idle localhost) (api localhost "/agent/run-once" (post None))
         fresh_world) = Normal (JObj [("processed", JBool false)]) /\
  get_prop (JObj [("processed", JBool false)]) "processed" =
  inr (JBool false) /\
  statusMsg
    (store (snd (run (be_idle localhost) (runOnce localhost true)
                   fresh_world))) = "No emails pending.".
Proof.
  split; [reflexivity | split; [reflexivity | ]].
  apply (proj2 (runOnce_status_phrases localhost (be_idle localhost)
                  fresh_world true (JObj [("processed", JBool false)])
                  eq_refl)).
  reflexivity.
Defined.

(** The button [Run 10 steps] when the backend processes three messages. *)
Lemma runLoop_single_bounded_request_witness :
  0 < 10 /\
  safe_integer 3 /\
  statusMsg
    (store (snd (run (be_busy localhost) (runLoop localhost 10) fresh_world)))
  = "Loop done. Processed 3 messages.".
Proof.
  assert (Hsafe : safe_integer 3) by (unfold safe_integer; lia).
  split; [lia | split; [exact Hsafe | ]].
  apply (proj2 (proj2 (proj2 (proj2
           (runLoop_single_bounded_request localhost (be_busy localhost)
              fresh_world 10 ltac:(lia)))))
           (JObj [("processed", JNum 3)]) 3);
    [reflexivity | reflexivity | exact Hsafe].
Defined.

(** Start, one tick, stop, start again. *)
Lemma one_timer_iff_autoRun_witness :
  exec localhost (mount localhost)
    [StartAuto; Fire 1%positive; StopAuto; StartAuto] =
  Some (page_after localhost
          [StartAuto; Fire 1%positive; StopAuto; StartAuto]) /\
  (length
     (timers (page_after localhost
                [StartAuto; Fire 1%positive; StopAuto; StartAuto])) <= 1)%nat.
Proof.
  assert (H : exec localhost (mount localhost)
                [StartAuto; Fire 1%positive; StopAuto; StartAuto] =
              Some (page_after localhost
                      [StartAuto; Fire 1%positive; StopAuto; StartAuto]))
    by (vm_compute; reflexivity).
  split; [exact H | ].
  exact (proj1 (proj2 (one_timer_iff_autoRun localhost _ _ H))).
Defined.


(** ** Further properties at sample inputs *)

(** A [null] status body is stored. *)
Lemma loadAgentStatus_stores_any_body_witness :
  fst (run be_null (api localhost "/agent/status" no_opts) fresh_world) =
  Normal JNull /\
  store (snd (run be_null (loadAgentStatus localhost) fresh_world)) =
  apply_write (setAgentStatus JNull) (store fresh_world).
Proof.
  split; [reflexivity | ].
  apply (proj2 (proj2 (loadAgentStatus_stores_any_body localhost be_null
                         fresh_world))).
  reflexivity.
Defined.

(** One message processed. *)
Lemma runOnce_reads_processed_by_truthiness_witness :
  fst (run (be_busy localhost) (api localhost "/agent/run-once" (post None))
         fresh_world) = Normal (JObj [("processed", JBool true)]) /\
  get_prop (JObj [("processed", JBool true)]) "processed" = inr (JBool true) /\
  statusMsg
    (store (snd (run (be_busy localhost) (runOnce localhost true)
                   fresh_world))) =
  "Processed one email and replied (mock).".
Proof.
  split; [reflexivity | split; [reflexivity | ]].
  apply (runOnce_reads_processed_by_truthiness localhost (be_busy localhost)
           fresh_world true (JObj [("processed", JBool true)]) (JBool true));
    reflexivity.
Defined.

(** Process-next against a backend that answers [null]. *)
Lemma null_body_is_reported_as_failure_witness :
  fst (run be_null (api localhost "/agent/run-once" (post None)) fresh_world)
  = Normal JNull /\
  statusMsg (store (snd (run be_null (runOnce localhost true) fresh_world))) =
  "Process failed: Cannot read properties of null (reading 'processed')" /\
  trace (snd (run be_null (runOnce localhost true) fresh_world)) =
  [request localhost "/agent/run-once" (post None)].
Proof.
  split; [reflexivity | ].
  rewrite (proj1 (null_body_is_reported_as_failure localhost be_null
                    fresh_world) true eq_refl).
  split; reflexivity.
Defined.

(** A tick against a healthy backend with nothing pending. *)
Lemma tick_refreshes_twice_witness :
  fst (run (be_idle localhost) (api localhost "/agent/run-once" (post None))
         fresh_world) = Normal (JObj [("processed", JBool false)]) /\
  trace (snd (run (be_idle localhost) (tick localhost) fresh_world)) =
  [request localhost "/agent/run-once" (post None);
   get localhost "/analytics/summary"; get localhost "/logs";
   get localhost "/gmail/poll"; get localhost "/agent/status";
   get localhost "/gmail/poll"; get localhost "/analytics/summary";
   get localhost "/logs"; get localhost "/agent/status"].
Proof.
  split; [reflexivity | ].
  apply (proj1 (proj2 (tick_refreshes_twice localhost (be_idle localhost)
                         fresh_world))
           (JObj [("processed", JBool false)]) (JBool false));
    reflexivity.
Defined.

Lemma be_idle_stateless : stateless (be_idle localhost).
Proof. intros h h' r. reflexivity. Defined.

(** Refreshing twice a console that shows an old log entry. *)
Lemma action_refresh_idempotent_witness :
  stateless (be_idle localhost) /\
  store (snd (run (be_idle localhost)
                (action_refresh localhost ;; action_refresh localhost)
                world_with_log)) =
  store (snd (run (be_idle localhost) (action_refresh localhost)
                world_with_log)).
Proof.
  split; [exact be_idle_stateless | ].
  apply (action_refresh_idempotent localhost (be_idle localhost)
           world_with_log be_idle_stateless).
Defined.

(** The two refresh orders on the same console. *)
Lemma refresh_order_is_immaterial_witness :
  stateless (be_idle localhost) /\
  store (snd (run (be_idle localhost) (tick_refresh_steps localhost)
                world_with_log)) =
  store (snd (run (be_idle localhost) (action_refresh localhost)
                world_with_log)).
Proof.
  split; [exact be_idle_stateless | ].
  apply (refresh_order_is_immaterial localhost (be_idle localhost)
           world_with_log be_idle_stateless).
Defined.

(** Seed, start the cycle, one tick. *)
Lemma console_sends_known_requests_only_witness :
  exec localhost (mount localhost)
    [Click Seed; StartAuto; Fire 1%positive] =
  Some (page_after localhost [Click Seed; StartAuto; Fire 1%positive]) /\
  Forall (known_request localhost)
    (sent (page_after localhost [Click Seed; StartAuto; Fire 1%positive])).
Proof.
  assert (H : exec localhost (mount localhost)
                [Click Seed; StartAuto; Fire 1%positive] =
              Some (page_after localhost
                      [Click Seed; StartAuto; Fire 1%positive]))
    by (vm_compute; reflexivity).
  split; [exact H | ].
  exact (console_sends_known_requests_only localhost _ _ H).
Defined.

(** The first poll fails. *)
Lemma queue_and_logs_stay_truthy_witness :
  exec localhost (mount localhost) [Settle 2 [net_down]] =
  Some (page_after localhost [Settle 2 [net_down]]) /\
  truthy (gmailQueue (view (page_after localhost [Settle 2 [net_down]]))) =
  true /\
  truthy (logs (view (page_after localhost [Settle 2 [net_down]]))) = true.
Proof.
  assert (H : exec localhost (mount localhost) [Settle 2 [net_down]] =
              Some (page_after localhost [Settle 2 [net_down]]))
    by (vm_compute; reflexivity).
  split; [exact H | ].
  exact (queue_and_logs_stay_truthy localhost _ _ H).
Defined.

(** A successful seed, then its refresh fails. *)
Lemma loaded_state_is_never_cleared_witness :
  exec localhost (mount localhost) [Click Seed; Settle 3 [ok_empty]] =
  Some (page_after localhost [Click Seed; Settle 3 [ok_empty]]) /\
  exec localhost (page_after localhost [Click Seed; Settle 3 [ok_empty]])
    [Settle 3 [net_down; net_down]] =
  Some (page_after localhost
          [Click Seed; Settle 3 [ok_empty]; Settle 3 [net_down; net_down]]) /\
  seeded (view (page_after localhost [Click Seed; Settle 3 [ok_empty]])) =
  true /\
  seeded
    (view (page_after localhost
             [Click Seed; Settle 3 [ok_empty];
              Settle 3 [net_down; net_down]])) = true.
Proof.
  assert (H : exec localhost (mount localhost)
                [Click Seed; Settle 3 [ok_empty]] =
              Some (page_after localhost [Click Seed; Settle 3 [ok_empty]]))
    by (vm_compute; reflexivity).
  assert (H' : exec localhost
                 (page_after localhost [Click Seed; Settle 3 [ok_empty]])
                 [Settle 3 [net_down; net_down]] =
               Some (page_after localhost
                       [Click Seed; Settle 3 [ok_empty];
                        Settle 3 [net_down; net_down]]))
    by (vm_compute; reflexivity).
  assert (Hs : seeded (view (page_after localhost
                               [Click Seed; Settle 3 [ok_empty]])) = true)
    by (vm_compute; reflexivity).
  split; [exact H | split; [exact H' | split; [exact Hs | ]]].
  exact (proj1 (loaded_state_is_never_cleared localhost _ _ _ _ H H') Hs).
Defined.

(** The button of a console whose cycle is running. *)
Lemma auto_button_always_toggles_witness :
  exec localhost (mount localhost) [StartAuto] =
  Some (page_after localhost [StartAuto]) /\
  mounted (page_after localhost [StartAuto]) = true /\
  exists pg',
    step localhost (page_after localhost [StartAuto])
      (auto_button (page_after localhost [StartAuto])) = Some pg' /\
    autoRun pg' = negb (autoRun (page_after localhost [StartAuto])) /\
    length (timers pg') = (if autoRun pg' then 1 else 0)%nat.
Proof.
  assert (H : exec localhost (mount localhost) [StartAuto] =
              Some (page_after localhost [StartAuto]))
    by (vm_compute; reflexivity).
  assert (Hm : mounted (page_after localhost [StartAuto]) = true)
    by (vm_compute; reflexivity).
  split; [exact H | split; [exact Hm | ]].
  exact (auto_button_always_toggles localhost _ _ H Hm).
Defined.

(** Closing the console while the cycle is running. *)
Lemma unmount_cancels_timer_witness :
  exec localhost (mount localhost) [StartAuto] =
  Some (page_after localhost [StartAuto]) /\
  step localhost (page_after localhost [StartAuto]) Unmount =
  Some (page_after localhost [StartAuto; Unmount]) /\
  timers (page_after localhost [StartAuto; Unmount]) = [].
Proof.
  assert (H : exec localhost (mount localhost) [StartAuto] =
              Some (page_after localhost [StartAuto]))
    by (vm_compute; reflexivity).
  assert (H' : step localhost (page_after localhost [StartAuto]) Unmount =
               Some (page_after localhost [StartAuto; Unmount]))
    by (vm_compute; reflexivity).
  split; [exact H | split; [exact H' | ]].
  exact (proj1 (unmount_cancels_timer localhost _ _ _ H H')).
Defined.

(** Three ticks in a row on a backend that has not answered yet. *)
Lemma ticks_overlap_without_bound_witness :
  In 1%positive (timers (page_after localhost [StartAuto])) /\
  exists q,
    exec localhost (page_after localhost [StartAuto])
      (repeat (Fire 1%positive) 3) = Some q /\
    length (inflight q) =
    (length (inflight (page_after localhost [StartAuto])) + 3)%nat /\
    sent q =
    (sent (page_after localhost [StartAuto])
       ++ repeat (request localhost "/agent/run-once" (post None)) 3)%list.
Proof.
  assert (H : In 1%positive (timers (page_after localhost [StartAuto])))
    by (vm_compute; left; reflexivity).
  split; [exact H | ].
  exact (ticks_overlap_without_bound localhost _ 1%positive 3 H).
Defined.

(** The three requests of the first render have all failed. *)
Lemma loading_clears_when_idle_witness :
  exec localhost (mount localhost)
    [Settle 0 [net_down; net_down]; Settle 0 [net_down; net_down];
     Settle 0 [net_down]] =
  Some (page_after localhost
          [Settle 0 [net_down; net_down]; Settle 0 [net_down; net_down];
           Settle 0 [net_down]]) /\
  inflight (page_after localhost
              [Settle 0 [net_down; net_down]; Settle 0 [net_down; net_down];
               Settle 0 [net_down]]) = [] /\
  loading (view (page_after localhost
                   [Settle 0 [net_down; net_down];
                    Settle 0 [net_down; net_down]; Settle 0 [net_down]])) =
  false.
Proof.
  assert (H : exec localhost (mount localhost)
                [Settle 0 [net_down; net_down]; Settle 0 [net_down; net_down];
                 Settle 0 [net_down]] =
              Some (page_after localhost
                      [Settle 0 [net_down; net_down];
                       Settle 0 [net_down; net_down]; Settle 0 [net_down]]))
    by (vm_compute; reflexivity).
  assert (Hi : inflight (page_after localhost
                 [Settle 0 [net_down; net_down]; Settle 0 [net_down; net_down];
                  Settle 0 [net_down]]) = [])
    by (vm_compute; reflexivity).
  split; [exact H | split; [exact Hi | ]].
  exact (loading_clears_when_idle localhost _ _ H ltac:(vm_compute; reflexivity)
           Hi).
Defined.
